(** * literatureExportConverter: the record parser and the mapping pipeline

    A shallow embedding of [convert.py]: the RIS reader ([RISFileReader]),
    the syntax and semantic mapping stages, the per-dialect cleaners and
    [transform], followed by the properties of the design document that
    they satisfy (or do not).

    Modelling choices.
    - A Python [str] is a [string]; every character is read as a code point
      below 256.
    - A record ([Dict[str, str]]) is a [gmap string string].  Python keeps
      the insertion order of a dict; nothing below observes it: the only
      loop over the items of a record ([semantic_map]) can at most raise
      the same exception from a different item.
      A field of a record has a string for its value, as the RIS reader
      gives it; a row of [csv.DictReader] that is shorter than the header
      has [None] for the missing fields, and such rows are not modelled:
      no statement below says which exception they would raise.
    - An exception is a value of [exn]; a function that may raise returns
      a [result]. *)

From Stdlib Require Import Ascii DecimalString DecimalNat.
From stdpp Require Import gmap strings list fin_maps.

(** ** Exceptions *)

Inductive exn : Set := KeyError | ValueError | TypeError.

Inductive result (A : Type) : Type :=
  | OK (a : A)
  | Raise (e : exn).
Arguments OK {A} a.
Arguments Raise {A} e.

Definition result_bind {A B} (f : A → result B) (m : result A) : result B :=
  match m with
  | OK a => f a
  | Raise e => Raise e
  end.

#[global] Instance result_ret : MRet result := λ A, @OK A.
#[global] Instance result_mbind : MBind result := λ A B, @result_bind A B.

(** Goals on concrete inputs are closed by running the program. *)
Ltac run := vm_compute; reflexivity.

(** ** The string methods of Python that the program calls *)

Module Str.

(** [str.isspace] on one character, for code points below 256. *)
Definition isspace (c : ascii) : bool :=
  let n := nat_of_ascii c in
  (Nat.leb 9 n && Nat.leb n 13) || (Nat.leb 28 n && Nat.leb n 32)
  || Nat.eqb n 133 || Nat.eqb n 160.

Fixpoint lstrip (s : string) : string :=
  match s with
  | String c s' => if isspace c then lstrip s' else s
  | EmptyString => EmptyString
  end.

Fixpoint rstrip (s : string) : string :=
  match s with
  | EmptyString => EmptyString
  | String c s' =>
      match rstrip s' with
      | EmptyString => if isspace c then EmptyString else String c EmptyString
      | r => String c r
      end
  end.

(** [s.strip()] *)
Definition strip (s : string) : string := rstrip (lstrip s).

(** [s[:n]] for [n >= 0] *)
Fixpoint take (n : nat) (s : string) : string :=
  match n, s with
  | S n', String c s' => String c (take n' s')
  | _, _ => EmptyString
  end.

(** [s[n:]] for [n >= 0] *)
Fixpoint drop (n : nat) (s : string) : string :=
  match n, s with
  | S n', String _ s' => drop n' s'
  | _, _ => s
  end.

(** [s[a:b]] for [0 <= a], [0 <= b] *)
Definition slice (a b : nat) (s : string) : string := take (b - a) (drop a s).

(** [s[:-n]] for [n > 0] *)
Definition drop_end (n : nat) (s : string) : string :=
  take (String.length s - n) s.

(** [s.endswith(suffix)] *)
Definition endswith (s suffix : string) : bool :=
  Nat.leb (String.length suffix) (String.length s)
  && String.eqb (drop (String.length s - String.length suffix) s) suffix.

(** [sub in s] *)
Fixpoint contains (sub s : string) : bool :=
  String.prefix sub s
  || match s with
     | EmptyString => false
     | String _ s' => contains sub s'
     end.

(** [s.split(sep)] for a non-empty [sep]: [cur] is the piece being read,
    [skip] the number of characters of a separator still to pass. *)
Fixpoint split_go (sep : string) (skip : nat) (cur s : string) : list string :=
  match s with
  | EmptyString => [cur]
  | String c s' =>
      match skip with
      | S k => split_go sep k cur s'
      | O =>
          if String.prefix sep s
          then cur :: split_go sep (String.length sep - 1) EmptyString s'
          else split_go sep 0 (cur +:+ String c EmptyString) s'
      end
  end.

Definition split (sep s : string) : list string := split_go sep 0 EmptyString s.

(** [s.replace(old, new)] for a non-empty [old] *)
Fixpoint replace_go (old new : string) (skip : nat) (s : string) : string :=
  match s with
  | EmptyString => EmptyString
  | String c s' =>
      match skip with
      | S k => replace_go old new k s'
      | O =>
          if String.prefix old s
          then new +:+ replace_go old new (String.length old - 1) s'
          else String c (replace_go old new 0 s')
      end
  end.

Definition replace (old new s : string) : string := replace_go old new 0 s.

(** [sep.join(l)] *)
Fixpoint join (sep : string) (l : list string) : string :=
  match l with
  | [] => EmptyString
  | [x] => x
  | x :: l' => x +:+ sep +:+ join sep l'
  end.

(** [str(i)], also the [{i}] of an f-string, for [i >= 0] *)
Definition of_nat (i : nat) : string := NilEmpty.string_of_uint (Nat.to_uint i).

End Str.

(** ** The RIS reader *)

Module RISFileReader.

(** The key and the value that one line carries (line 52). *)
Definition line_key (line : string) : string := Str.strip (Str.slice 0 4 line).
Definition line_value (line : string) : string := Str.strip (Str.drop 6 line).

(** The loop of [ris_to_dict], from the state [(content, oldkey)].
    [content[oldkey]] with [oldkey = None] is a lookup of a key that no
    record has. *)
Fixpoint ris_loop (content : gmap string string) (oldkey : option string)
    (lines : list string) : result (gmap string string * option string) :=
  match lines with
  | [] => OK (content, oldkey)
  | line :: lines' =>
      let key := line_key line in
      let value := line_value line in
      if decide (key = "") then
        match oldkey with
        | None => Raise KeyError
        | Some k =>
            match content !! k with
            | None => Raise KeyError
            | Some old => ris_loop (<[k := old +:+ " " +:+ value]> content) oldkey lines'
            end
        end
      else
        match content !! key with
        | Some old => ris_loop (<[key := old +:+ "; " +:+ value]> content) (Some key) lines'
        | None => ris_loop (<[key := value]> content) (Some key) lines'
        end
  end.

Definition ris_to_dict (lines : list string) : result (gmap string string) :=
  '(content, _) ← ris_loop ∅ None lines; OK content.

(** What one call of [__next__] gives its caller. *)
Inductive outcome : Type :=
  | Yield (entry : gmap string string)
  | StopIteration
  | Raised (e : exn).

Definition returned (r : result (gmap string string)) : outcome :=
  match r with
  | OK entry => Yield entry
  | Raise e => Raised e
  end.

(** [__next__]: the state of the reader is the list of the lines of the
    file that are still unread (each with its line end, as iterating
    over a file gives them); the call returns the lines it leaves. *)
Fixpoint next_loop (read_lines file : list string) : outcome * list string :=
  match file with
  | line :: file' =>
      if decide (Str.strip line = "")
      then (returned (ris_to_dict read_lines), file')
      else next_loop (read_lines ++ [line]) file'
  | [] =>
      if decide (length read_lines = 0)
      then (StopIteration, [])
      else (returned (ris_to_dict read_lines), [])
  end.

Definition __next__ (file : list string) : outcome * list string :=
  next_loop [] file.

End RISFileReader.

(** ** The cleaners *)

Definition ieee_clean_entry (entry : gmap string string) : gmap string string :=
  match entry !! "author" with
  | Some author => <["author" := Str.replace "; " " and " author]> entry
  | None => entry
  end.

(** The [while] loop of [scopus_author_canonicalize]: the argument is
    [author_split[i:]], the result what the loop appends to [names] from
    there on.  The loop runs while two tokens are left. *)
Fixpoint scopus_names (author_split : list string) : list string :=
  match author_split with
  | last_name :: (first_name :: rest) as tail =>
      if negb (Str.contains "." first_name)
      then Str.strip last_name :: scopus_names tail
      else (Str.strip last_name +:+ ", " +:+ Str.strip first_name) :: scopus_names rest
  | _ => []
  end.

(** [None] is Python's [None]. *)
Definition scopus_author_canonicalize (authors : string) : option string :=
  if decide (authors = "[No author name available]") then None
  else Some (Str.join " and " (scopus_names (Str.split "," authors))).

Definition scopus_clean_entry (entry : gmap string string) : gmap string string :=
  match entry !! "author" with
  | Some authors =>
      match scopus_author_canonicalize authors with
      | None => delete "author" entry
      | Some author => <["author" := author]> entry
      end
  | None => entry
  end.

(** The [for] loop over the identifiers of the [doi] field: [doi] starts
    as [None] and every identifier that ends in [[doi]] overwrites it. *)
Definition pubmed_doi_step (doi : option string) (article_id : string) : option string :=
  if Str.endswith (Str.strip article_id) "[doi]"
  then Some (Str.strip (Str.drop_end 5 (Str.strip article_id)))
  else doi.

Definition pubmed_doi (ids : string) : option string :=
  foldl pubmed_doi_step None (Str.split ";" ids).

(** [if doi:] is false for [None] and for the empty string. *)
Definition truthy (doi : option string) : option string :=
  match doi with
  | Some d => if decide (d = "") then None else Some d
  | None => None
  end.

Definition pubmed_clean_entry (entry : gmap string string) : gmap string string :=
  let entry :=
    match entry !! "author" with
    | Some author => <["author" := Str.replace "; " " and " author]> entry
    | None => entry
    end in
  let entry :=
    match entry !! "doi" with
    | Some ids =>
        match truthy (pubmed_doi ids) with
        | Some doi => <["doi" := doi]> entry
        | None => delete "doi" entry
        end
    | None => entry
    end in
  match entry !! "year" with
  | Some year => <["year" := Str.slice 0 4 year]> entry
  | None => entry
  end.

(** [clean_entry]: the venue rule, then the cleaner of the dialect. *)
Definition clean_entry (entry : gmap string string) (dialect : string)
    : result (gmap string string) :=
  match entry !! "ENTRYTYPE" with
  | None => Raise KeyError
  | Some entrytype =>
      let entry :=
        if decide (entrytype = "article")
        then delete "booktitle" entry
        else delete "journal" entry in
      if decide (dialect = "ieee") then OK (ieee_clean_entry entry)
      else if decide (dialect = "scopus") then OK (scopus_clean_entry entry)
      else if decide (dialect = "pubmed") then OK (pubmed_clean_entry entry)
      else Raise ValueError
  end.

(** ** Iterating over the reader, and [batched] *)

(** [for row in reader], run to its end: [__iter__] rewinds the file,
    then [__next__] is called until it signals the end of the sequence;
    an exception ends the loop.  A call that returns a record has read a
    line, so one call more than the file has lines is all that the loop
    can make: [fuel] counts the calls that are left. *)
Fixpoint iterate (fuel : nat) (file : list string)
    : result (list (gmap string string)) :=
  match fuel with
  | O => OK []
  | S fuel' =>
      match RISFileReader.__next__ file with
      | (RISFileReader.StopIteration, _) => OK []
      | (RISFileReader.Raised e, _) => Raise e
      | (RISFileReader.Yield entry, file') =>
          entries ← iterate fuel' file'; OK (entry :: entries)
      end
  end.

Definition records (file : list string) : result (list (gmap string string)) :=
  iterate (S (length file)) file.

(** The [while] loop of [batched], over what is left of the iterable:
    [islice(it, n)] takes the next [n] items, and an empty batch ends the
    loop.  With [n >= 1] a batch that is not empty takes an item away, so
    the loop runs at most once for each item and once more. *)
Fixpoint batched_loop {A} (fuel n : nat) (it : list A) : list (list A) :=
  match fuel with
  | O => []
  | S fuel' =>
      match take n it with
      | [] => []
      | batch => batch :: batched_loop fuel' n (drop n it)
      end
  end.

(** [batched(iterable, n)], as the list of the batches that the generator
    yields when it is run to its end. *)
Definition batched {A} (iterable : list A) (n : nat) : result (list (list A)) :=
  if decide (n < 1) then Raise ValueError
  else OK (batched_loop (S (length iterable)) n iterable).

(** ** The mapping stages and the pipeline *)

Section Pipeline.

(** The two mapping files as [yaml.safe_load] returns them, keyed by
    dialect.  They are not part of [convert.py]: the stages are defined,
    and their properties proved, for any content of these files.  A
    syntax map is the list of the mappings of the file, each the list of
    its [(key, bib_key)] items. *)
Variable syntax_mapping : gmap string (list (list (string * string))).
Variable semantic_mapping : gmap string (gmap string (gmap string string)).

(** [list(found_pts)[0]]: the element that a Python set lists first is
    not fixed by the program; [first_of all_pts found_pts] stands for it. *)
Variable first_of : list string → gset string → string.

(** [functools.lru_cache] keeps the first result; the files do not
    change, so every call returns the entry of the dialect, or raises
    when the file has none. *)
Definition get_syntax_map (dialect : string)
    : result (list (list (string * string))) :=
  match syntax_mapping !! dialect with
  | Some syntax_map => OK syntax_map
  | None => Raise KeyError
  end.

Definition get_semantic_map (dialect : string)
    : result (gmap string (gmap string string)) :=
  match semantic_mapping !! dialect with
  | Some semantic_map => OK semantic_map
  | None => Raise KeyError
  end.

(** The inner loop of [schema_map], over the items of one mapping.  The
    row is [None] when [preprocess_entry] fell through; [key not in row]
    is then a type error. *)
Fixpoint synmap_loop (items : list (string * string))
    (row : option (gmap string string)) (entry : gmap string string)
    : result (gmap string string) :=
  match items with
  | [] => OK entry
  | (key, bib_key) :: items' =>
      match row with
      | None => Raise TypeError
      | Some r =>
          match r !! key with
          | None => synmap_loop items' row entry
          | Some value =>
              if decide (value = "") then synmap_loop items' row entry
              else synmap_loop items' row (<[bib_key := value]> entry)
          end
      end
  end.

(** The outer loop of [schema_map]: one pass of the rules over a row. *)
Fixpoint syntax_loop (syntax_map : list (list (string * string)))
    (row : option (gmap string string)) (entry : gmap string string)
    : result (gmap string string) :=
  match syntax_map with
  | [] => OK entry
  | synmap :: syntax_map' =>
      entry ← synmap_loop synmap row entry;
      syntax_loop syntax_map' row entry
  end.

Definition entry_id (dialect : string) (i : nat) : string :=
  dialect +:+ "_" +:+ Str.of_nat i.

Definition schema_map (i : nat) (row : option (gmap string string))
    (dialect : string) : result (gmap string string) :=
  let entry := {[ "ID" := entry_id dialect i ]} in
  syntax_map ← get_syntax_map dialect;
  syntax_loop syntax_map row entry.

(** The loop of [semantic_map] over [entry.items()]; the loop assigns to
    keys that the entry has, so the items it visits are those of the
    entry it started from. *)
Fixpoint semantic_loop (semantic_map : gmap string (gmap string string))
    (items : list (string * string)) (entry : gmap string string)
    : result (gmap string string) :=
  match items with
  | [] => OK entry
  | (key, value) :: items' =>
      match semantic_map !! key with
      | None => semantic_loop semantic_map items' entry
      | Some values =>
          match values !! value with
          | None => Raise KeyError
          | Some canonical =>
              semantic_loop semantic_map items' (<[key := canonical]> entry)
          end
      end
  end.

Definition semantic_map (entry : gmap string string) (dialect : string)
    : result (gmap string string) :=
  semantic_map ← get_semantic_map dialect;
  semantic_loop semantic_map (map_to_list entry) entry.

Definition pubmed_preprocess (entry : gmap string string)
    : result (gmap string string) :=
  semantic_map ← get_semantic_map "pubmed";
  match semantic_map !! "ENTRYTYPE" with
  | None => Raise KeyError
  | Some types =>
      let candidate_pts : gset string := dom types in
      match entry !! "PT" with
      | None => Raise KeyError
      | Some pt =>
          let all_pts := Str.split "; " pt in
          let found_pts := candidate_pts ∩ list_to_set all_pts in
          if decide (0 < size found_pts)
          then OK (<["PT" := first_of all_pts found_pts]> entry)
          else OK (<["PT" := "Journal Article"]> entry)
      end
  end.

(** The function ends without a [return] for any other dialect: the
    caller gets [None]. *)
Definition preprocess_entry (entry : gmap string string) (dialect : string)
    : result (option (gmap string string)) :=
  if decide (dialect = "ieee" ∨ dialect = "scopus") then OK (Some entry)
  else if decide (dialect = "pubmed") then
    entry ← pubmed_preprocess entry; OK (Some entry)
  else OK None.

(** The body of the loop of [transform], for the row of index [i]. *)
Definition transform_entry (dialect : string) (i : nat)
    (row : gmap string string) : result (gmap string string) :=
  entry ← preprocess_entry row dialect;
  entry ← schema_map i entry dialect;
  entry ← semantic_map entry dialect;
  clean_entry entry dialect.

(** The loop of [transform] from index [i], [database] being the entries
    appended so far. *)
Fixpoint transform_loop (dialect : string) (i : nat)
    (entries : list (gmap string string)) (database : list (gmap string string))
    : result (list (gmap string string)) :=
  match entries with
  | [] => OK database
  | row :: entries' =>
      entry ← transform_entry dialect i row;
      transform_loop dialect (S i) entries' (database ++ [entry])
  end.

Definition transform (dialect : string) (entries : list (gmap string string))
    : result (list (gmap string string)) :=
  transform_loop dialect 0 entries [].

(** [transform(dialect, ris)] as [convert_ris] calls it: the loop of
    [transform] takes its rows from the reader one at a time, so a row is
    transformed before the next one is read. *)
Fixpoint transform_reader_loop (fuel : nat) (dialect : string) (i : nat)
    (file : list string) (database : list (gmap string string))
    : result (list (gmap string string)) :=
  match fuel with
  | O => OK database
  | S fuel' =>
      match RISFileReader.__next__ file with
      | (RISFileReader.StopIteration, _) => OK database
      | (RISFileReader.Raised e, _) => Raise e
      | (RISFileReader.Yield row, file') =>
          entry ← transform_entry dialect i row;
          transform_reader_loop fuel' dialect (S i) file' (database ++ [entry])
      end
  end.

Definition transform_ris (dialect : string) (file : list string)
    : result (list (gmap string string)) :=
  transform_reader_loop (S (length file)) dialect 0 file [].

(** ** Notions that the properties are stated with *)

(** The dialects that the program is for. *)
Definition known (dialect : string) : Prop :=
  dialect ∈ ["ieee"; "scopus"; "pubmed"].

(** A line that ends a record. *)
Definition blank (line : string) : Prop := Str.strip line = "".

(** A blank line that is the first line of the file or follows a blank
    line. *)
Definition stray_blank (file : list string) : Prop :=
  ∃ before line after,
    file = before ++ line :: after ∧ blank line ∧
    (before = [] ∨ ∃ previous, last before = Some previous ∧ blank previous).

(** The records that are still to come when the reader has accumulated
    [read_lines] and [file] is unread: the two loops, of [__next__] and
    of its caller, as one recursion over the lines. *)
Fixpoint records_from (read_lines file : list string)
    : result (list (gmap string string)) :=
  match file with
  | line :: file' =>
      if decide (blank line) then
        entry ← RISFileReader.ris_to_dict read_lines;
        entries ← records_from [] file';
        OK (entry :: entries)
      else records_from (read_lines ++ [line]) file'
  | [] =>
      if decide (read_lines = []) then OK []
      else entry ← RISFileReader.ris_to_dict read_lines; OK [entry]
  end.

(** The key and value that a line of a record carries. *)
Definition line_item (line : string) : string * string :=
  (RISFileReader.line_key line, RISFileReader.line_value line).

(** What [first_of] is known to do: the first element of a set that is
    not empty is one of its elements. *)
Definition picks_element (first_of : list string → gset string → string) : Prop :=
  ∀ all_pts found_pts, found_pts ≠ ∅ → first_of all_pts found_pts ∈ found_pts.

(** The authors of a Scopus export as the list of their last and first
    names, and the string that the export has for them. *)
Definition scopus_tokens (authors : list (string * string)) : list string :=
  authors ≫= λ '(last_name, first_name), [last_name; first_name].

Definition scopus_author (author : string * string) : string :=
  Str.strip author.1 +:+ ", " +:+ Str.strip author.2.

(** The key of the previous field: the key of the last line read so far
    that is not a continuation line. *)
Definition previous_key (lines : list string) : option string :=
  last (filter (λ key, key ≠ "") (RISFileReader.line_key <$> lines)).

(** The state [(content, oldkey)] of the loop of [ris_to_dict] is well
    formed when [oldkey], if set, is a key of [content]. *)
Definition ris_inv (content : gmap string string) (oldkey : option string) : Prop :=
  ∀ k, oldkey = Some k → is_Some (content !! k).

(** The tokens of a [doi] field whose trimmed form ends in [[doi]], and
    what is left of such a token without the suffix. *)
Definition is_doi_token (article_id : string) : Prop :=
  Str.endswith (Str.strip article_id) "[doi]" = true.

Definition doi_tokens (ids : string) : list string :=
  filter is_doi_token (Str.split ";" ids).

Definition doi_of_token (article_id : string) : string :=
  Str.strip (Str.drop_end 5 (Str.strip article_id)).

(** What the semantic map makes of the field [key] with value [value]. *)
Definition canonical_value (sm : gmap string (gmap string string))
    (key value : string) : option string :=
  match sm !! key with
  | Some values => values !! value
  | None => Some value
  end.

(** The line end that every line of a text file but possibly the last
    carries. *)
Definition LF : string := String (ascii_of_nat 10) EmptyString.

(** ** Mapping files and rows to run the pipeline on

    Two small mapping files of the shape that the program loads, with
    field names of a PubMed and of an IEEE export, and rows for them. *)

Definition pubmed_rules : list (list (string * string)) :=
  [ [("TI", "title")]; [("AU", "author")]; [("JT", "journal")];
    [("AID", "doi")]; [("DP", "year")]; [("PT", "ENTRYTYPE")] ].

Definition ieee_rules : list (list (string * string)) :=
  [ [("Document Title", "title")]; [("Authors", "author")];
    [("Publication Title", "journal")]; [("Publication Title", "booktitle")];
    [("Publication Year", "year")]; [("Document Identifier", "ENTRYTYPE")] ].

Definition sample_syntax_mapping : gmap string (list (list (string * string))) :=
  {[ "pubmed" := pubmed_rules; "ieee" := ieee_rules ]}.

Definition pubmed_types : gmap string string :=
  {[ "Journal Article" := "article"; "Review" := "article" ]}.

Definition ieee_types : gmap string string :=
  {[ "IEEE Journals" := "article"; "IEEE Conferences" := "inproceedings" ]}.

Definition sample_semantic_mapping : gmap string (gmap string (gmap string string)) :=
  {[ "pubmed" := {[ "ENTRYTYPE" := pubmed_types ]};
     "ieee" := {[ "ENTRYTYPE" := ieee_types ]} ]}.

(** One way for a set to list its elements: in the order of [elements]. *)
Definition sample_first_of (all_pts : list string) (found_pts : gset string) : string :=
  default "" (head (elements found_pts)).

Definition sample_rows : list (gmap string string) :=
  [ {[ "TI" := "Title A"; "AU" := "Smith, J.; Doe, A."; "JT" := "Journal X";
       "AID" := "12345 [pmid]; 10.1000/xyz [doi]"; "DP" := "2020 Jan-Feb";
       "PT" := "Journal Article" ]};
    {[ "TI" := "Title B"; "AID" := "999 [pii]"; "PT" := "Letter" ]} ].

Definition sample_database : list (gmap string string) :=
  [ {[ "ID" := "pubmed_0"; "title" := "Title A"; "author" := "Smith, J. and Doe, A.";
       "journal" := "Journal X"; "doi" := "10.1000/xyz"; "year" := "2020";
       "ENTRYTYPE" := "article" ]};
    {[ "ID" := "pubmed_1"; "title" := "Title B"; "ENTRYTYPE" := "article" ]} ].

(** The lines of a PubMed file with the two records of [sample_rows]. *)
Definition sample_file : list string :=
  [ "TI  - Title A" +:+ LF; "AU  - Smith, J." +:+ LF; "AU  - Doe, A." +:+ LF;
    "JT  - Journal X" +:+ LF; "AID - 12345 [pmid]" +:+ LF;
    "AID - 10.1000/xyz [doi]" +:+ LF; "DP  - 2020 Jan-Feb" +:+ LF;
    "PT  - Journal Article" +:+ LF; LF;
    "TI  - Title B" +:+ LF; "AID - 999 [pii]" +:+ LF; "PT  - Letter" +:+ LF ].

(** A syntax map with a rule whose target is the identifier, and a row
    that the rule applies to. *)
Definition keyed_syntax_mapping : gmap string (list (list (string * string))) :=
  {[ "ieee" := [ [("Document Title", "title")]; [("Document Identifier", "ENTRYTYPE")];
                 [("Citation Key", "ID")] ] ]}.

Definition keyed_row : gmap string string :=
  {[ "Document Title" := "Title A"; "Document Identifier" := "IEEE Journals";
     "Citation Key" := "smith2020" ]}.

(** The mapping files leave the identifier alone: no rule of the syntax
    map of the dialect has ["ID"] as its target, and the semantic map of
    the dialect has no ["ID"] key. *)
Definition leaves_id (dialect : string) : Prop :=
  (∀ syntax_map, syntax_mapping !! dialect = Some syntax_map →
     ∀ synmap key bib_key,
       synmap ∈ syntax_map → (key, bib_key) ∈ synmap → bib_key ≠ "ID") ∧
  (∀ sm, semantic_mapping !! dialect = Some sm → sm !! "ID" = None).

(** ** Properties of the pipeline *)

(** The cleaners leave every field alone but those that they are for. *)

Lemma ieee_clean_entry_other entry k :
  k ≠ "author" → ieee_clean_entry entry !! k = entry !! k.
Proof.
  intros Hk. unfold ieee_clean_entry.
  destruct (entry !! "author"); [|done]. by rewrite lookup_insert_ne.
Qed.

Lemma scopus_clean_entry_other entry k :
  k ≠ "author" → scopus_clean_entry entry !! k = entry !! k.
Proof.
  intros Hk. unfold scopus_clean_entry.
  destruct (entry !! "author") as [authors|]; [|done].
  destruct (scopus_author_canonicalize authors).
  - by rewrite lookup_insert_ne.
  - by rewrite lookup_delete_ne.
Qed.

Lemma pubmed_clean_entry_other entry k :
  k ≠ "author" → k ≠ "doi" → k ≠ "year" →
  pubmed_clean_entry entry !! k = entry !! k.
Proof.
  intros Ha Hd Hy. unfold pubmed_clean_entry.
  repeat (case_match; rewrite ?lookup_insert_ne, ?lookup_delete_ne by done); done.
Qed.

Lemma clean_entry_other entry dialect cleaned k :
  clean_entry entry dialect = OK cleaned →
  k ∉ ["booktitle"; "journal"; "author"; "doi"; "year"] →
  cleaned !! k = entry !! k.
Proof.
  unfold clean_entry. intros Hclean Hk.
  assert (k ≠ "booktitle" ∧ k ≠ "journal" ∧ k ≠ "author" ∧ k ≠ "doi" ∧ k ≠ "year")
    as (? & ? & ? & ? & ?).
  { repeat split; intros ->; apply Hk; set_solver. }
  destruct (entry !! "ENTRYTYPE") as [entrytype|]; [|done].
  repeat case_decide; simplify_eq;
    rewrite ?ieee_clean_entry_other, ?scopus_clean_entry_other,
      ?pubmed_clean_entry_other, ?lookup_delete_ne by done; done.
Qed.

(** One pass of the syntax map over a row is the overwriting of the entry
    with a set of fields that depends on the rules and the row only. *)

Lemma synmap_loop_union items (row : gmap string string) :
  ∃ updates : gmap string string,
    ∀ entry, synmap_loop items (Some row) entry = OK (updates ∪ entry).
Proof.
  induction items as [|[key bib_key] items [updates IH]]; simpl.
  - exists ∅. intros entry. by rewrite (left_id ∅ (∪)).
  - destruct (row !! key) as [value|]; [|by exists updates].
    case_decide; [by exists updates|].
    exists (updates ∪ {[bib_key := value]}). intros entry.
    by rewrite IH, insert_union_singleton_l, (assoc (∪)).
Qed.

Lemma syntax_loop_union syntax_map (row : gmap string string) :
  ∃ updates : gmap string string,
    ∀ entry, syntax_loop syntax_map (Some row) entry = OK (updates ∪ entry).
Proof.
  induction syntax_map as [|synmap syntax_map [updates IH]]; simpl.
  - exists ∅. intros entry. by rewrite (left_id ∅ (∪)).
  - destruct (synmap_loop_union synmap row) as [updates1 Hsyn].
    exists (updates ∪ updates1). intros entry.
    rewrite Hsyn. simpl. by rewrite IH, (assoc (∪)).
Qed.

(** A pass leaves alone a field that no rule has as its target. *)

Lemma synmap_loop_other items row k : ∀ entry mapped,
  (∀ key bib_key, (key, bib_key) ∈ items → bib_key ≠ k) →
  synmap_loop items row entry = OK mapped → mapped !! k = entry !! k.
Proof.
  induction items as [|[key bib_key] items IH]; intros entry mapped Hrules Hrun;
    simpl in Hrun.
  - by simplify_eq.
  - assert (∀ key' bib_key', (key', bib_key') ∈ items → bib_key' ≠ k) as Hrest.
    { intros ?? Hin. eapply Hrules. by right. }
    destruct row as [r|]; [|done].
    destruct (r !! key) as [value|]; [|by apply IH].
    case_decide; [by apply IH|].
    rewrite (IH _ _ Hrest Hrun). apply lookup_insert_ne.
    eapply Hrules. by left.
Qed.

Lemma syntax_loop_other syntax_map row k : ∀ entry mapped,
  (∀ synmap key bib_key,
     synmap ∈ syntax_map → (key, bib_key) ∈ synmap → bib_key ≠ k) →
  syntax_loop syntax_map row entry = OK mapped → mapped !! k = entry !! k.
Proof.
  induction syntax_map as [|synmap syntax_map IH]; intros entry mapped Hrules Hrun;
    simpl in Hrun.
  - by simplify_eq.
  - destruct (synmap_loop synmap row entry) as [entry1|] eqn:Hsyn; [|done].
    simpl in Hrun. rewrite (IH entry1 mapped); [| |done].
    2:{ intros synmap' ?? Hin. apply Hrules. by right. }
    eapply synmap_loop_other; [|done]. intros ??. apply Hrules. by left.
Qed.

(** The loop of [semantic_map]. *)

Lemma semantic_loop_other sm items k : ∀ entry mapped,
  sm !! k = None →
  semantic_loop sm items entry = OK mapped → mapped !! k = entry !! k.
Proof.
  induction items as [|[key value] items IH]; intros entry mapped Hk Hrun;
    simpl in Hrun.
  - by simplify_eq.
  - destruct (sm !! key) as [values|] eqn:Hkey; [|by apply IH].
    destruct (values !! value) as [canonical|]; [|done].
    rewrite (IH _ _ Hk Hrun). apply lookup_insert_ne. congruence.
Qed.

Lemma semantic_loop_miss sm items key value values : ∀ entry,
  (key, value) ∈ items → sm !! key = Some values → values !! value = None →
  semantic_loop sm items entry = Raise KeyError.
Proof.
  induction items as [|[key' value'] items IH]; intros entry Hin Hkey Hmiss; simpl.
  - by apply elem_of_nil in Hin.
  - apply elem_of_cons in Hin as [[= <- <-]|Hin].
    + by rewrite Hkey, Hmiss.
    + destruct (sm !! key') as [values'|]; [|by apply IH].
      destruct (values' !! value'); [by apply IH | done].
Qed.

Lemma semantic_loop_images sm items : ∀ entry,
  NoDup items.*1 →
  (∀ key value, (key, value) ∈ items → is_Some (canonical_value sm key value)) →
  ∃ mapped, semantic_loop sm items entry = OK mapped ∧
    ∀ key, mapped !! key =
      match (list_to_map items : gmap string string) !! key with
      | Some value =>
          match sm !! key with
          | Some values => values !! value
          | None => entry !! key
          end
      | None => entry !! key
      end.
Proof.
  induction items as [|[key value] items IH]; intros entry Hdup Himg; simpl.
  - exists entry. split; [done|]. intros key. by rewrite lookup_empty.
  - apply NoDup_cons in Hdup as [Hfresh Hdup].
    apply not_elem_of_list_to_map_1 in Hfresh. simpl in Hfresh.
    assert (∀ key' value', (key', value') ∈ items →
                           is_Some (canonical_value sm key' value')) as Hrest.
    { intros ?? Hin. apply Himg. by right. }
    destruct (Himg key value) as [canonical Hcan]; [by left|].
    unfold canonical_value in Hcan.
    destruct (sm !! key) as [values|] eqn:Hkey.
    + rewrite Hcan.
      destruct (IH (<[key := canonical]> entry) Hdup Hrest) as (mapped & -> & Hlook).
      exists mapped. split; [done|]. intros key'. rewrite Hlook.
      destruct (decide (key = key')) as [<-|Hne].
      * by rewrite Hfresh, !lookup_insert_eq, Hkey, Hcan.
      * by rewrite !lookup_insert_ne.
    + destruct (IH entry Hdup Hrest) as (mapped & -> & Hlook).
      exists mapped. split; [done|]. intros key'. rewrite Hlook.
      destruct (decide (key = key')) as [<-|Hne].
      * by rewrite Hfresh, lookup_insert_eq, Hkey.
      * by rewrite lookup_insert_ne.
Qed.

(** C8. A second pass of the rules of the syntax map over the same row,
    applied to the entry that [schema_map] built, gives that entry again. *)
Theorem schema_map_idempotent (i : nat) (row : gmap string string)
    (dialect : string) (syntax_map : list (list (string * string))) :
  get_syntax_map dialect = OK syntax_map →
  ∃ entry, schema_map i (Some row) dialect = OK entry ∧
           syntax_loop syntax_map (Some row) entry = OK entry.
Proof.
  intros Hmap. unfold schema_map. rewrite Hmap. simpl.
  destruct (syntax_loop_union syntax_map row) as [updates Hpass].
  eexists. split; [apply Hpass|].
  by rewrite Hpass, (assoc (∪)), (idemp (∪)).
Qed.

(** C4. When the entry has a key of the semantic map of the dialect with
    a value that the inner map has no image for, [semantic_map] raises a
    key-lookup error.  When every such value has an image, [semantic_map]
    returns the entry with each of these values replaced by its image and
    every other field as it was. *)
Theorem semantic_map_strict (entry : gmap string string) (dialect : string)
    (sm : gmap string (gmap string string)) :
  get_semantic_map dialect = OK sm →
  ((∃ key value values,
      entry !! key = Some value ∧ sm !! key = Some values ∧ values !! value = None) →
   semantic_map entry dialect = Raise KeyError) ∧
  ((∀ key value values,
      entry !! key = Some value → sm !! key = Some values → is_Some (values !! value)) →
   ∃ mapped, semantic_map entry dialect = OK mapped ∧
     ∀ key, mapped !! key =
       match entry !! key with
       | Some value =>
           match sm !! key with
           | Some values => values !! value
           | None => Some value
           end
       | None => None
       end).
Proof.
  intros Hmap. unfold semantic_map. rewrite Hmap. simpl. split.
  - intros (key & value & values & Hentry & Hkey & Hmiss).
    eapply semantic_loop_miss; [|done..]. by apply elem_of_map_to_list.
  - intros Himg.
    destruct (semantic_loop_images sm (map_to_list entry) entry) as (mapped & -> & Hlook).
    + apply NoDup_fst_map_to_list.
    + intros key value Hin%elem_of_map_to_list. unfold canonical_value.
      destruct (sm !! key) eqn:Hkey; [by eapply Himg | by eexists].
    + exists mapped. split; [done|]. intros key.
      rewrite Hlook, list_to_map_to_list.
      destruct (entry !! key) eqn:Hentry; [|done]. by destruct (sm !! key).
Qed.

(** The loop of [transform]. *)

Lemma of_nat_inj i j : Str.of_nat i = Str.of_nat j → i = j.
Proof.
  unfold Str.of_nat. intros Heq. apply DecimalNat.Unsigned.to_uint_inj.
  assert (Some (Nat.to_uint i) = Some (Nat.to_uint j)) as [= ?]; [|done].
  by rewrite <- !NilEmpty.usu, Heq.
Qed.

Lemma entry_id_inj dialect i j : entry_id dialect i = entry_id dialect j → i = j.
Proof.
  unfold entry_id. intros Heq. apply of_nat_inj.
  by do 2 apply (inj (String.app _)) in Heq.
Qed.

Lemma transform_loop_entries dialect entries : ∀ i database out,
  transform_loop dialect i entries database = OK out →
  ∃ news, out = database ++ news ∧ length news = length entries ∧
    ∀ j row, entries !! j = Some row →
      ∃ entry, news !! j = Some entry ∧ transform_entry dialect (i + j) row = OK entry.
Proof.
  induction entries as [|row entries IH]; intros i database out Hrun; simpl in Hrun.
  - simplify_eq. exists []. by rewrite app_nil_r.
  - destruct (transform_entry dialect i row) as [entry|] eqn:Hentry; [|done].
    simpl in Hrun. apply IH in Hrun as (news & -> & Hlen & Hnews).
    exists (entry :: news). split; [by rewrite <- app_assoc|].
    split; [simpl; by rewrite Hlen|].
    intros [|j] row' Hj; simpl in Hj.
    + simplify_eq. exists entry. by rewrite Nat.add_0_r.
    + destruct (Hnews j row' Hj) as (entry' & ? & ?).
      exists entry'. split; [done|]. by rewrite Nat.add_succ_r.
Qed.

Lemma transform_entry_stages dialect i row entry :
  transform_entry dialect i row = OK entry →
  ∃ pre mapped canonical,
    preprocess_entry row dialect = OK pre ∧
    schema_map i pre dialect = OK mapped ∧
    semantic_map mapped dialect = OK canonical ∧
    clean_entry canonical dialect = OK entry.
Proof.
  unfold transform_entry. intros Hrun.
  destruct (preprocess_entry row dialect) as [pre|]; [|done].
  change (mbind ?f (OK ?a)) with (f a) in Hrun. cbv beta in Hrun.
  destruct (schema_map i pre dialect) as [mapped|] eqn:Hschema; [|done].
  change (mbind ?f (OK ?a)) with (f a) in Hrun. cbv beta in Hrun.
  destruct (semantic_map mapped dialect) as [canonical|] eqn:Hsem; [|done].
  change (mbind ?f (OK ?a)) with (f a) in Hrun. cbv beta in Hrun.
  by exists pre, mapped, canonical.
Qed.

Lemma transform_entry_id dialect i row entry :
  leaves_id dialect →
  transform_entry dialect i row = OK entry →
  entry !! "ID" = Some (entry_id dialect i).
Proof.
  intros [Hsyntax Hsemantic]
    (pre & mapped & canonical & _ & Hschema & Hsem & Hclean)%transform_entry_stages.
  rewrite (clean_entry_other _ _ _ "ID" Hclean).
  2:{ rewrite !elem_of_cons, elem_of_nil. by intros [?|[?|[?|[?|[?|[]]]]]]. }
  unfold semantic_map, get_semantic_map in Hsem.
  destruct (semantic_mapping !! dialect) as [sm|] eqn:Hsm; [|done]. simpl in Hsem.
  rewrite (semantic_loop_other _ _ "ID" _ _ (Hsemantic sm eq_refl) Hsem).
  unfold schema_map, get_syntax_map in Hschema.
  destruct (syntax_mapping !! dialect) as [syntax_map|] eqn:Hsyn; [|done].
  simpl in Hschema.
  rewrite (syntax_loop_other _ _ "ID" _ _ (Hsyntax syntax_map eq_refl) Hschema).
  apply lookup_singleton_eq.
Qed.

(** C1 (amended). When [transform] returns, the database has one entry
    for each input record, in input order, the entry of index [i] being
    the one built from the record of index [i].  When no rule of the
    syntax map of the dialect has ["ID"] as its target and the semantic
    map of the dialect has no ["ID"] key, the entry of index [i] has the
    identifier [{dialect}_{i}], and no two entries share an identifier. *)
Theorem transform_identifiers (dialect : string)
    (entries database : list (gmap string string)) :
  transform dialect entries = OK database →
  length database = length entries ∧
  (∀ i row, entries !! i = Some row →
     ∃ entry, database !! i = Some entry ∧ transform_entry dialect i row = OK entry) ∧
  (leaves_id dialect →
     (∀ i entry, database !! i = Some entry →
        entry !! "ID" = Some (dialect +:+ "_" +:+ Str.of_nat i)) ∧
     (∀ i j ei ej, database !! i = Some ei → database !! j = Some ej →
        ei !! "ID" = ej !! "ID" → i = j)).
Proof.
  intros (news & -> & Hlen & Hnews)%transform_loop_entries. simpl.
  split; [done|]. split; [done|]. intros Hid.
  assert (∀ i entry, news !! i = Some entry →
                     entry !! "ID" = Some (entry_id dialect i)) as Hids.
  { intros i entry Hi.
    destruct (lookup_lt_is_Some_2 entries i) as [row Hrow].
    { rewrite <- Hlen. by eapply lookup_lt_Some. }
    destruct (Hnews i row Hrow) as (entry' & Hi' & Hentry). simplify_eq.
    by eapply transform_entry_id. }
  split; [done|].
  intros i j ei ej Hi%Hids Hj%Hids Heq. rewrite Hi, Hj in Heq.
  injection Heq as Heq. by eapply entry_id_inj.
Qed.

(** C9. [clean_entry] raises a key-lookup error on an entry without an
    ["ENTRYTYPE"] field, whatever the dialect, known or not.  Hence, when
    [transform] returns, the syntax and semantic stages gave every record
    an ["ENTRYTYPE"] field. *)
Theorem clean_entry_needs_entrytype :
  (∀ (entry : gmap string string) (dialect : string),
     entry !! "ENTRYTYPE" = None → clean_entry entry dialect = Raise KeyError) ∧
  (∀ (dialect : string) (entries database : list (gmap string string)),
     transform dialect entries = OK database →
     ∀ i row, entries !! i = Some row →
       ∃ pre mapped canonical,
         preprocess_entry row dialect = OK pre ∧
         schema_map i pre dialect = OK mapped ∧
         semantic_map mapped dialect = OK canonical ∧
         is_Some (canonical !! "ENTRYTYPE")).
Proof.
  split.
  - intros entry dialect Htype. unfold clean_entry. by rewrite Htype.
  - intros dialect entries database (news & -> & _ & Hnews)%transform_loop_entries i row Hrow.
    destruct (Hnews i row Hrow) as (entry & _ & Hentry).
    apply transform_entry_stages in Hentry
      as (pre & mapped & canonical & Hpre & Hschema & Hsem & Hclean).
    exists pre, mapped, canonical. repeat split; try done.
    unfold clean_entry in Hclean.
    destruct (canonical !! "ENTRYTYPE"); [by eexists | done].
Qed.

(** ** Iterating over the reader *)

(* A lemma depends on the mapping files only when its statement does. *)
#[local] Set Default Proof Using "Type".

Section ReaderProperties.
Import RISFileReader.

Lemma next_loop_forward file : ∀ read_lines o rest,
  next_loop read_lines file = (o, rest) →
  ∃ read, file = read ++ rest ∧ (file ≠ [] → read ≠ []).
Proof.
  induction file as [|line file IH]; intros read_lines o rest Hnext; simpl in Hnext.
  - exists []. by case_decide; simplify_eq.
  - case_decide.
    + simplify_eq. by exists [line].
    + apply IH in Hnext as (read & -> & _). by exists (line :: read).
Qed.

Lemma next_shorter file o rest :
  __next__ file = (o, rest) → file ≠ [] → length rest < length file.
Proof.
  intros (read & -> & Hread)%next_loop_forward Hfile.
  rewrite length_app. specialize (Hread Hfile).
  destruct read; [done | simpl; lia].
Qed.

(** What a call of [__next__] returns is the first of the records that
    are still to come, and what it leaves gives the others. *)
Lemma next_loop_records_from file : ∀ read_lines,
  records_from read_lines file =
  match next_loop read_lines file with
  | (StopIteration, _) => OK []
  | (Raised e, _) => Raise e
  | (Yield entry, rest) => entries ← records_from [] rest; OK (entry :: entries)
  end.
Proof.
  induction file as [|line file IH]; intros read_lines; simpl.
  - destruct read_lines as [|l read_lines]; simpl; [done|].
    by destruct (ris_to_dict (l :: read_lines)).
  - unfold blank. case_decide; [|apply IH].
    by destruct (ris_to_dict read_lines).
Qed.

Lemma iterate_records_from fuel : ∀ file,
  length file < fuel → iterate fuel file = records_from [] file.
Proof.
  induction fuel as [|fuel IH]; intros file Hfuel; [lia|].
  rewrite next_loop_records_from. simpl. fold (__next__ file).
  destruct (__next__ file) as [[entry| |e] rest] eqn:Hnext; try done.
  rewrite IH; [done|].
  destruct file as [|line file]; [done|].
  apply next_shorter in Hnext; [simpl in *; lia | done].
Qed.

Lemma records_records_from file : records file = records_from [] file.
Proof. apply iterate_records_from. lia. Qed.

Lemma filter_all {A} (P : A → Prop) `{∀ x, Decision (P x)} (l : list A) :
  Forall P l → filter P l = l.
Proof.
  induction 1 as [|x l Hx _ IH]; [done|].
  by rewrite filter_cons, decide_True, IH.
Qed.

Lemma filter_none {A} (P : A → Prop) `{∀ x, Decision (P x)} (l : list A) :
  Forall (λ x, ¬ P x) l → filter P l = [].
Proof.
  induction 1 as [|x l Hx _ IH]; [done|].
  by rewrite filter_cons, decide_False, IH.
Qed.

Lemma records_from_groups file : ∀ read_lines entries,
  Forall (λ l, ¬ blank l) read_lines →
  records_from read_lines file = OK entries →
  ∃ groups,
    concat groups = read_lines ++ filter (λ l, ¬ blank l) file ∧
    Forall2 (λ group entry, ris_to_dict group = OK entry) groups entries ∧
    length entries = length (filter blank file) +
      match last (read_lines ++ file) with
      | Some l => if decide (blank l) then 0 else 1
      | None => 0
      end.
Proof.
  clear syntax_mapping semantic_mapping first_of.
  induction file as [|line file IH]; intros read_lines entries Hread Hrec;
    simpl in Hrec.
  - rewrite app_nil_r. case_decide as Hnil.
    + simplify_eq. by exists [].
    + destruct (ris_to_dict read_lines) as [entry|] eqn:Hdict; [|done].
      simplify_eq/=. exists [read_lines]. simpl. rewrite app_nil_r.
      split; [done|]. split; [by repeat constructor|].
      destruct (last read_lines) as [l|] eqn:Hlast.
      * apply last_Some_elem_of in Hlast.
        rewrite Forall_forall in Hread. by rewrite decide_False by auto.
      * by apply last_None in Hlast.
  - rewrite !filter_cons. destruct (decide (blank line)) as [Hblank|Hblank].
    + destruct (ris_to_dict read_lines) as [entry|] eqn:Hdict; [|done].
      simpl in Hrec.
      destruct (records_from [] file) as [entries'|] eqn:Hrest; [|done].
      simplify_eq/=. destruct (IH [] entries' (Forall_nil_2 _) Hrest)
        as (groups & Hconcat & Hgroups & Hlen).
      exists (read_lines :: groups). simpl.
      rewrite decide_False by tauto.
      split; [by rewrite Hconcat|]. split; [by constructor|].
      simpl in Hlen. rewrite Hlen. simpl. f_equal. f_equal.
      rewrite last_app, last_cons. destruct (last file); [done|].
      by rewrite decide_True.
    + rewrite decide_True by done.
      destruct (IH (read_lines ++ [line]) entries) as (groups & Hconcat & Hgroups & Hlen);
        [by apply Forall_app; split; [|repeat constructor] | done |].
      exists groups. rewrite Hconcat, Hlen, <- !app_assoc. done.
Qed.

Lemma records_from_stray file : ∀ read_lines entries,
  (∃ before line after,
     file = before ++ line :: after ∧ blank line ∧
     (before = [] ∧ read_lines = [] ∨
      ∃ previous, last before = Some previous ∧ blank previous)) →
  records_from read_lines file = OK entries → ∅ ∈ entries.
Proof.
  induction file as [|l file IH];
    intros read_lines entries (before & line & after & Hfile & Hline & Hprev) Hrec.
  - by destruct before.
  - simpl in Hrec. case_decide as Hblank.
    + destruct (ris_to_dict read_lines) as [entry|] eqn:Hdict; [|done].
      simpl in Hrec.
      destruct (records_from [] file) as [entries'|] eqn:Hrest; [|done].
      simplify_eq/=. destruct Hprev as [[-> ->]|(previous & Hlast & Hprevious)].
      * vm_compute in Hdict. simplify_eq. by left.
      * right. destruct before as [|l' before]; [done|]. simplify_eq/=.
        apply (IH [] entries'); [|done].
        exists before, line, after. split; [done|]. split; [done|].
        destruct before as [|l'' before]; [by left|]. right.
        exists previous. by rewrite last_cons_cons in Hlast.
    + destruct before as [|l' before]; simplify_eq/=; [done|].
      apply (IH (read_lines ++ [l']) entries); [|done].
      exists before, line, after. split; [done|]. split; [done|].
      destruct Hprev as [[? _]|(previous & Hlast & Hprevious)]; [done|].
      right. exists previous. split; [|done].
      destruct before as [|l'' before]; [by simplify_eq/=|].
      by rewrite last_cons_cons in Hlast.
Qed.

(** X1. A call of [__next__] leaves a tail of the lines it was given, and
    when a line was left to read it has read at least one: the loop that
    calls it comes to an end. *)
Theorem next_reads_forward (file : list string) (o : outcome) (rest : list string) :
  __next__ file = (o, rest) →
  ∃ read, file = read ++ rest ∧ (file ≠ [] → read ≠ []).
Proof. apply next_loop_forward. Qed.

(** X2. When the loop over the reader comes to its end, the records are
    those of consecutive groups of lines that, put together, are the
    lines of the file that are not blank, in their order; there is one
    record for each blank line, and one more when the last line of the
    file is not blank. *)
Theorem records_groups (file : list string) (entries : list (gmap string string)) :
  records file = OK entries →
  ∃ groups,
    concat groups = filter (λ l, ¬ blank l) file ∧
    Forall2 (λ group entry, ris_to_dict group = OK entry) groups entries ∧
    length entries = length (filter blank file) +
      match last file with
      | Some l => if decide (blank l) then 0 else 1
      | None => 0
      end.
Proof.
  rewrite records_records_from. intros Hrec.
  by apply (records_from_groups file [] entries) in Hrec.
Qed.

End ReaderProperties.

(** ** More on the stages of the pipeline *)

#[local] Set Warnings "-clear-no-such-hyp".

Lemma semantic_loop_dom sm items : ∀ entry mapped,
  (∀ key value, (key, value) ∈ items → is_Some (entry !! key)) →
  semantic_loop sm items entry = OK mapped → dom mapped = dom entry.
Proof.
  induction items as [|[key value] items IH]; intros entry mapped Hitems Hrun;
    simpl in Hrun.
  - by simplify_eq.
  - assert (∀ key' value', (key', value') ∈ items → is_Some (entry !! key')) as Hrest.
    { intros ?? Hin. eapply Hitems. by right. }
    destruct (sm !! key) as [values|]; [|by apply IH].
    destruct (values !! value) as [canonical|]; [|done].
    rewrite (IH (<[key := canonical]> entry) mapped); [| |done].
    + apply dom_insert_lookup_L. eapply Hitems. by left.
    + intros key' value' Hin. rewrite lookup_insert_is_Some.
      destruct (decide (key = key')); eauto.
Qed.

Lemma semantic_loop_error sm items : ∀ entry e,
  semantic_loop sm items entry = Raise e → e = KeyError.
Proof.
  induction items as [|[key value] items IH]; intros entry e Hrun; simpl in Hrun; [done|].
  destruct (sm !! key) as [values|]; [|by eapply IH].
  destruct (values !! value); [by eapply IH | by simplify_eq].
Qed.

Lemma synmap_loop_none items : ∀ entry,
  synmap_loop items None entry = Raise TypeError ∨
  synmap_loop items None entry = OK entry.
Proof. destruct items as [|[key bib_key] items]; intros entry; simpl; auto. Qed.

Lemma syntax_loop_none syntax_map : ∀ entry,
  syntax_loop syntax_map None entry = Raise TypeError ∨
  syntax_loop syntax_map None entry = OK entry.
Proof.
  induction syntax_map as [|synmap syntax_map IH]; intros entry; simpl; [by auto|].
  destruct (synmap_loop_none synmap entry) as [-> | ->]; simpl; auto.
Qed.

(** The rules give a row without fields nothing to copy. *)
Lemma syntax_loop_empty syntax_map : ∀ entry,
  syntax_loop syntax_map (Some ∅) entry = OK entry.
Proof.
  induction syntax_map as [|synmap syntax_map IH]; intros entry; simpl; [done|].
  assert (synmap_loop synmap (Some ∅) entry = OK entry) as ->; [|apply IH].
  induction synmap as [|[key bib_key] synmap IHs]; simpl; [done|].
  by rewrite lookup_empty.
Qed.

(** A field of the entry after a pass was in the entry before, or is the
    value, not empty, that a rule found in the row. *)
Lemma synmap_loop_value items (row : gmap string string) k v : ∀ entry mapped,
  synmap_loop items (Some row) entry = OK mapped → mapped !! k = Some v →
  entry !! k = Some v ∨
  v ≠ "" ∧ ∃ key, (key, k) ∈ items ∧ row !! key = Some v.
Proof.
  induction items as [|[key bib_key] items IH]; intros entry mapped Hrun Hk;
    simpl in Hrun.
  - left. by simplify_eq.
  - assert (∀ entry', synmap_loop items (Some row) entry' = OK mapped →
              entry' !! k = Some v ∨
              v ≠ "" ∧ ∃ key', (key', k) ∈ (key, bib_key) :: items ∧ row !! key' = Some v)
      as Hrest.
    { intros entry' Hrun'. destruct (IH _ _ Hrun' Hk) as [?|(? & key' & ? & ?)]; [by left|].
      right. split; [done|]. exists key'. split; [by right | done]. }
    destruct (row !! key) as [value|] eqn:Hkey; [|by apply Hrest].
    case_decide as Hvalue; [by apply Hrest|].
    destruct (Hrest _ Hrun) as [Hins|?]; [|by right].
    rewrite lookup_insert in Hins. case_decide; [|by left].
    simplify_eq. right. split; [done|]. exists key. split; [by left | done].
Qed.

Lemma syntax_loop_value syntax_map (row : gmap string string) k v : ∀ entry mapped,
  syntax_loop syntax_map (Some row) entry = OK mapped → mapped !! k = Some v →
  entry !! k = Some v ∨
  v ≠ "" ∧ ∃ synmap key,
    synmap ∈ syntax_map ∧ (key, k) ∈ synmap ∧ row !! key = Some v.
Proof.
  induction syntax_map as [|synmap syntax_map IH]; intros entry mapped Hrun Hk;
    simpl in Hrun.
  - left. by simplify_eq.
  - destruct (synmap_loop synmap (Some row) entry) as [entry1|] eqn:Hsyn; [|done].
    simpl in Hrun. destruct (IH _ _ Hrun Hk) as [Hk1|(? & synmap' & key & ? & ? & ?)].
    + destruct (synmap_loop_value _ _ _ _ _ _ Hsyn Hk1) as [?|(? & key & ? & ?)];
        [by left|].
      right. split; [done|]. exists synmap, key. split; [by left | done].
    + right. split; [done|]. exists synmap', key. split; [by right | done].
Qed.

Lemma syntax_loop_app syntax_map1 syntax_map2 row entry :
  syntax_loop (syntax_map1 ++ syntax_map2) row entry =
  entry' ← syntax_loop syntax_map1 row entry; syntax_loop syntax_map2 row entry'.
Proof.
  revert entry. induction syntax_map1 as [|synmap syntax_map1 IH]; intros entry;
    simpl; [done|].
  destruct (synmap_loop synmap row entry); simpl; [apply IH | done].
Qed.

(** A pass leaves alone a field whose rules find nothing in the row. *)
Lemma synmap_loop_idle items (row : gmap string string) k : ∀ entry mapped,
  (∀ key, (key, k) ∈ items → row !! key = None ∨ row !! key = Some "") →
  synmap_loop items (Some row) entry = OK mapped → mapped !! k = entry !! k.
Proof.
  induction items as [|[key bib_key] items IH]; intros entry mapped Hidle Hrun;
    simpl in Hrun.
  - by simplify_eq.
  - assert (∀ key', (key', k) ∈ items → row !! key' = None ∨ row !! key' = Some "")
      as Hrest.
    { intros ? Hin. apply Hidle. by right. }
    destruct (row !! key) as [value|] eqn:Hkey; [|by apply IH].
    case_decide as Hvalue; [by apply IH|].
    rewrite (IH _ _ Hrest Hrun). apply lookup_insert_ne. intros ->.
    destruct (Hidle key) as [?|?]; [by left | congruence | congruence].
Qed.

Lemma syntax_loop_idle syntax_map (row : gmap string string) k : ∀ entry mapped,
  (∀ synmap key, synmap ∈ syntax_map → (key, k) ∈ synmap →
     row !! key = None ∨ row !! key = Some "") →
  syntax_loop syntax_map (Some row) entry = OK mapped → mapped !! k = entry !! k.
Proof.
  induction syntax_map as [|synmap syntax_map IH]; intros entry mapped Hidle Hrun;
    simpl in Hrun.
  - by simplify_eq.
  - destruct (synmap_loop synmap (Some row) entry) as [entry1|] eqn:Hsyn; [|done].
    simpl in Hrun. rewrite (IH entry1 mapped); [| |done].
    2:{ intros synmap' key' ? Hin. apply (Hidle synmap' key'); [by right | done]. }
    eapply synmap_loop_idle; [|done].
    intros key' Hin. apply (Hidle synmap key'); [by left | done].
Qed.

(** X12. [semantic_map] neither adds nor removes a field. *)
Theorem semantic_map_fields (entry mapped : gmap string string) (dialect : string) :
  semantic_map entry dialect = OK mapped → dom mapped = dom entry.
Proof.
  unfold semantic_map. destruct (get_semantic_map dialect) as [sm|]; [|done].
  simpl. apply semantic_loop_dom.
  intros key value Hin%elem_of_map_to_list. by eexists.
Qed.

(** X13. For a row (not [None]) [schema_map] returns exactly when the
    syntax mapping has the dialect.  A field of the entry it returns is
    the identifier, or it has the value, not empty, of a field of the row
    that a rule maps to it; and the rule that comes last among those
    that find a value decides: a single-item rule with a value in the
    row, after which no rule for the same target finds one, gives the
    target that value. *)
Theorem schema_map_values (i : nat) (row : gmap string string) (dialect : string) :
  (syntax_mapping !! dialect = None →
   schema_map i (Some row) dialect = Raise KeyError) ∧
  (∀ syntax_map, syntax_mapping !! dialect = Some syntax_map →
   ∃ entry, schema_map i (Some row) dialect = OK entry ∧
     (∀ k v, entry !! k = Some v →
        k = "ID" ∧ v = entry_id dialect i ∨
        v ≠ "" ∧ ∃ synmap key,
          synmap ∈ syntax_map ∧ (key, k) ∈ synmap ∧ row !! key = Some v) ∧
     (∀ before key bib_key after v,
        syntax_map = before ++ [(key, bib_key)] :: after →
        row !! key = Some v → v ≠ "" →
        (∀ synmap key', synmap ∈ after → (key', bib_key) ∈ synmap →
           row !! key' = None ∨ row !! key' = Some "") →
        entry !! bib_key = Some v)).
Proof.
  unfold schema_map, get_syntax_map. split.
  - by intros ->.
  - intros syntax_map ->. simpl.
    destruct (syntax_loop_union syntax_map row) as [updates Hpass].
    exists (updates ∪ {[ "ID" := entry_id dialect i ]}). split; [apply Hpass|].
    pose proof (Hpass {[ "ID" := entry_id dialect i ]}) as Hrun. split.
    + intros k v Hk.
      destruct (syntax_loop_value _ _ _ _ _ _ Hrun Hk) as [Hid|?]; [|by right].
      left. by apply lookup_singleton_Some in Hid as [<- <-].
    + intros before key bib_key after v -> Hkey Hv Hidle.
      rewrite syntax_loop_app in Hrun.
      destruct (syntax_loop before (Some row) _) as [entry1|]; [|done].
      simpl in Hrun. rewrite Hkey, decide_False in Hrun by done.
      rewrite (syntax_loop_idle _ _ bib_key _ _ Hidle Hrun).
      apply lookup_insert_eq.
Qed.

(** ** How the pipeline fails *)

Lemma known_cases dialect :
  known dialect ↔ dialect = "ieee" ∨ dialect = "scopus" ∨ dialect = "pubmed".
Proof. unfold known. rewrite !elem_of_cons, elem_of_nil. tauto. Qed.

Lemma pubmed_preprocess_outcome row :
  pubmed_preprocess row = Raise KeyError ∨
  ∃ pre, pubmed_preprocess row = OK pre ∧ is_Some (row !! "PT").
Proof.
  unfold pubmed_preprocess. destruct (get_semantic_map "pubmed") as [sm|e] eqn:Hsm.
  - simpl. destruct (sm !! "ENTRYTYPE"); [|by left].
    destruct (row !! "PT"); [|by left]. right. case_decide; eauto.
  - left. unfold get_semantic_map in Hsm.
    destruct (semantic_mapping !! "pubmed"); by simplify_eq.
Qed.

Lemma preprocess_entry_outcome row dialect :
  preprocess_entry row dialect = Raise KeyError ∨
  (∃ pre, preprocess_entry row dialect = OK (Some pre) ∧ known dialect ∧
          (row = ∅ → pre = ∅)) ∨
  preprocess_entry row dialect = OK None ∧ ¬ known dialect.
Proof.
  unfold preprocess_entry. case_decide as Hcsv.
  - right. left. exists row. split; [done|]. split; [apply known_cases; tauto | done].
  - case_decide as Hpubmed.
    + destruct (pubmed_preprocess_outcome row) as [->|(pre & -> & Hpt)]; [by left|].
      right. left. exists pre. split; [done|]. split; [apply known_cases; tauto|].
      intros ->. rewrite lookup_empty in Hpt. by destruct Hpt.
    + right. right. split; [done | rewrite known_cases; tauto].
Qed.

Lemma schema_map_outcome i pre dialect :
  schema_map i pre dialect = Raise KeyError ∨
  schema_map i pre dialect = Raise TypeError ∧ pre = None ∨
  ∃ mapped, schema_map i pre dialect = OK mapped ∧
    (pre = None ∨ pre = Some ∅ → mapped = {[ "ID" := entry_id dialect i ]}).
Proof.
  unfold schema_map, get_syntax_map.
  destruct (syntax_mapping !! dialect) as [syntax_map|]; [|by left]. simpl.
  destruct pre as [row|].
  - right. right. destruct (syntax_loop_union syntax_map row) as [updates Hpass].
    eexists. split; [apply Hpass|]. intros [?|[= ->]]; [done|].
    pose proof (syntax_loop_empty syntax_map {[ "ID" := entry_id dialect i ]}) as Hempty.
    rewrite Hpass in Hempty. by simplify_eq.
  - destruct (syntax_loop_none syntax_map {[ "ID" := entry_id dialect i ]}) as [->| ->].
    + right. by left.
    + right. right. by eexists.
Qed.

Lemma semantic_map_outcome mapped dialect :
  semantic_map mapped dialect = Raise KeyError ∨
  ∃ canonical, semantic_map mapped dialect = OK canonical ∧ dom canonical = dom mapped.
Proof.
  unfold semantic_map, get_semantic_map.
  destruct (semantic_mapping !! dialect) as [sm|]; [|by left]. simpl.
  destruct (semantic_loop sm (map_to_list mapped) mapped) as [canonical|e] eqn:Hrun.
  - right. eexists. split; [done|]. eapply semantic_loop_dom; [|done].
    intros key value Hin%elem_of_map_to_list. by eexists.
  - left. by apply semantic_loop_error in Hrun as ->.
Qed.

Lemma clean_entry_outcome canonical dialect :
  clean_entry canonical dialect = Raise KeyError ∧ canonical !! "ENTRYTYPE" = None ∨
  clean_entry canonical dialect = Raise ValueError ∧
    is_Some (canonical !! "ENTRYTYPE") ∧ ¬ known dialect ∨
  ∃ cleaned, clean_entry canonical dialect = OK cleaned ∧
    is_Some (canonical !! "ENTRYTYPE") ∧ known dialect.
Proof.
  unfold clean_entry.
  destruct (canonical !! "ENTRYTYPE") as [entrytype|]; [|by left].
  right. repeat case_decide;
    try (right; eexists; split; [done|]; split; [by eexists|];
         apply known_cases; tauto).
  left. split; [done|]. split; [by eexists|]. rewrite known_cases. tauto.
Qed.

(** The way of one record through the stages: it fails with a key error,
    or, for an unknown dialect, with a type error; a record without
    fields, and any record of an unknown dialect, fails. *)
Lemma transform_entry_outcome dialect i row :
  transform_entry dialect i row = Raise KeyError ∨
  transform_entry dialect i row = Raise TypeError ∧ ¬ known dialect ∨
  ∃ entry, transform_entry dialect i row = OK entry ∧ known dialect ∧ row ≠ ∅.
Proof.
  unfold transform_entry.
  destruct (preprocess_entry_outcome row dialect)
    as [->|[(pre & -> & Hknown & Hpre)|[-> Hknown]]]; [by left| |].
  - change (mbind ?f (OK ?a)) with (f a). cbv beta.
    destruct (schema_map_outcome i (Some pre) dialect)
      as [->|[[_ ?]|(mapped & -> & Hmapped)]]; [by left|done|].
    change (mbind ?f (OK ?a)) with (f a). cbv beta.
    destruct (semantic_map_outcome mapped dialect) as [->|(canonical & -> & Hdom)];
      [by left|].
    change (mbind ?f (OK ?a)) with (f a). cbv beta.
    destruct (clean_entry_outcome canonical dialect)
      as [[-> _]|[(_ & _ & ?)|(cleaned & -> & Htype & _)]]; [by left|done|].
    right. right. exists cleaned. split; [done|]. split; [done|].
    intros ->. rewrite Hmapped in Hdom by (right; by rewrite Hpre).
    destruct Htype as [entrytype Htype].
    apply (elem_of_dom_2 (D := gset string)) in Htype.
    rewrite Hdom, dom_singleton_L in Htype. by apply elem_of_singleton in Htype.
  - change (mbind ?f (OK ?a)) with (f a). cbv beta.
    destruct (schema_map_outcome i None dialect)
      as [->|[[-> _]|(mapped & -> & Hmapped)]]; [by left|by right; left|].
    change (mbind ?f (OK ?a)) with (f a). cbv beta.
    destruct (semantic_map_outcome mapped dialect) as [->|(canonical & -> & Hdom)];
      [by left|].
    change (mbind ?f (OK ?a)) with (f a). cbv beta.
    destruct (clean_entry_outcome canonical dialect)
      as [[-> _]|[(_ & Htype & _)|(cleaned & _ & _ & ?)]]; [by left| |done].
    destruct Htype as [entrytype Htype].
    apply (elem_of_dom_2 (D := gset string)) in Htype.
    rewrite Hdom, Hmapped, dom_singleton_L in Htype by by left.
    by apply elem_of_singleton in Htype.
Qed.

Lemma transform_loop_error dialect entries : ∀ i database e,
  transform_loop dialect i entries database = Raise e ↔
  ∃ j row, entries !! j = Some row ∧
    transform_entry dialect (i + j) row = Raise e ∧
    ∀ k row', k < j → entries !! k = Some row' →
      ∃ entry, transform_entry dialect (i + k) row' = OK entry.
Proof.
  induction entries as [|row entries IH]; intros i database e; simpl.
  - split; [done|]. by intros (j & row & Hj & _).
  - destruct (transform_entry dialect i row) as [entry|e'] eqn:Hentry; simpl.
    + rewrite IH. split.
      * intros (j & row' & Hj & Hfail & Hbefore).
        exists (S j), row'. split; [done|]. rewrite Nat.add_succ_r. split; [done|].
        intros [|k] row'' Hk Hrow''; simpl in Hrow''.
        -- simplify_eq. rewrite Nat.add_0_r. by eexists.
        -- rewrite Nat.add_succ_r. apply Hbefore; [lia | done].
      * intros ([|j] & row' & Hj & Hfail & Hbefore); simpl in Hj.
        -- simplify_eq. rewrite Nat.add_0_r in Hfail. congruence.
        -- exists j, row'. split; [done|]. rewrite Nat.add_succ_r in Hfail.
           split; [done|]. intros k row'' Hk Hrow''.
           destruct (Hbefore (S k) row'') as [entry' Hok]; [lia | done |].
           rewrite Nat.add_succ_r in Hok. by eexists.
    + split.
      * intros [= <-]. exists 0, row. rewrite Nat.add_0_r.
        split; [done|]. split; [done|]. intros; lia.
      * intros ([|j] & row' & Hj & Hfail & Hbefore); simpl in Hj.
        -- simplify_eq. rewrite Nat.add_0_r in Hfail. congruence.
        -- destruct (Hbefore 0 row) as [entry' Hok]; [lia | done |].
           rewrite Nat.add_0_r in Hok. congruence.
Qed.

(** X14. [transform] raises the error of the first record whose way
    through the stages fails, and only when there is one. *)
Theorem transform_first_error (dialect : string)
    (entries : list (gmap string string)) (e : exn) :
  transform dialect entries = Raise e ↔
  ∃ j row, entries !! j = Some row ∧
    transform_entry dialect j row = Raise e ∧
    ∀ k row', k < j → entries !! k = Some row' →
      ∃ entry, transform_entry dialect k row' = OK entry.
Proof. apply transform_loop_error. Qed.

(** For a dialect that is not one of the three, [preprocess_entry] gives
    [None] for the row, and no later stage sees the row. *)
Lemma transform_entry_unknown dialect i row row' :
  ¬ known dialect → transform_entry dialect i row = transform_entry dialect i row'.
Proof.
  rewrite known_cases. intros Hunknown. unfold transform_entry, preprocess_entry.
  rewrite !decide_False by tauto. done.
Qed.

(** X15. For a dialect that is not one of the three, [transform] fails on
    every input that is not empty, with a key error or a type error, and
    with the same one whatever the rows are: the rows are never looked
    at, and the value error that [clean_entry] has for an unknown dialect
    never reaches the caller of [transform]. *)
Theorem transform_unknown_dialect (dialect : string)
    (entries : list (gmap string string)) :
  dialect ∉ ["ieee"; "scopus"; "pubmed"] → entries ≠ [] →
  ∃ e, transform dialect entries = Raise e ∧
       (e = KeyError ∨ e = TypeError) ∧
       ∀ entries', entries' ≠ [] → transform dialect entries' = Raise e.
Proof.
  intros Hunknown Hne. destruct entries as [|row entries]; [done|].
  assert (∃ e, transform_entry dialect 0 row = Raise e ∧
               (e = KeyError ∨ e = TypeError)) as (e & Hrow & He).
  { destruct (transform_entry_outcome dialect 0 row)
      as [Hout|[[Hout _]|(entry & _ & ? & _)]]; [by eauto..|done]. }
  exists e. unfold transform. simpl. rewrite Hrow. split; [done|]. split; [done|].
  intros [|row' entries'] Hne'; [done|]. simpl.
  by rewrite (transform_entry_unknown dialect 0 row' row Hunknown), Hrow.
Qed.

(** X16. [pubmed_preprocess] raises a key error for a row without a
    ["PT"] field.  Otherwise, with the vocabulary of entry types at hand,
    it changes the ["PT"] field only, to one of its ["; "]-separated
    types that the vocabulary has, or to ["Journal Article"] when the
    vocabulary has none of them. *)
Theorem pubmed_preprocess_type (entry : gmap string string) :
  (entry !! "PT" = None → pubmed_preprocess entry = Raise KeyError) ∧
  (∀ sm types original,
     picks_element first_of →
     semantic_mapping !! "pubmed" = Some sm → sm !! "ENTRYTYPE" = Some types →
     entry !! "PT" = Some original →
     ∃ pt, pubmed_preprocess entry = OK (<["PT" := pt]> entry) ∧
       (pt ∈ Str.split "; " original ∧ is_Some (types !! pt) ∨
        pt = "Journal Article" ∧
        ∀ t, t ∈ Str.split "; " original → types !! t = None)).
Proof.
  split.
  - intros Hpt. destruct (pubmed_preprocess_outcome entry) as [?|(? & _ & Hsome)]; [done|].
    rewrite Hpt in Hsome. by destruct Hsome.
  - intros sm types original Hpick Hsm Htypes Hpt.
    unfold pubmed_preprocess, get_semantic_map. rewrite Hsm. simpl.
    rewrite Htypes, Hpt.
    set (found_pts := dom types ∩ list_to_set (Str.split "; " original)).
    case_decide as Hsize.
    + eexists. split; [done|]. left.
      assert (found_pts ≠ ∅) as Hne.
      { intros Heq. rewrite Heq, size_empty in Hsize. lia. }
      specialize (Hpick (Str.split "; " original) found_pts Hne).
      apply elem_of_intersection in Hpick as [Hdom Hlist].
      split; [by apply elem_of_list_to_set in Hlist | by apply elem_of_dom in Hdom].
    + eexists. split; [done|]. right. split; [done|]. intros t Ht.
      apply (not_elem_of_dom (D := gset string)). intros Hdom.
      assert (t ∈ found_pts) as Hin.
      { apply elem_of_intersection. split; [done | by apply elem_of_list_to_set]. }
      assert (found_pts ≡ ∅) as Hempty by (apply size_empty_iff; lia).
      by apply Hempty in Hin.
Qed.

(** ** The pipeline over the reader *)

Lemma transform_reader_loop_records dialect fuel : ∀ file i database out,
  length file < fuel →
  transform_reader_loop fuel dialect i file database = OK out ↔
  ∃ rows, records_from [] file = OK rows ∧
          transform_loop dialect i rows database = OK out.
Proof.
  induction fuel as [|fuel IH]; intros file i database out Hfuel; [lia|].
  rewrite next_loop_records_from. simpl.
  fold (RISFileReader.__next__ file).
  destruct (RISFileReader.__next__ file) as [[row| |e] rest] eqn:Hnext.
  - assert (length rest < fuel) as Hrest.
    { destruct file as [|line file]; [done|].
      apply next_shorter in Hnext; [simpl in *; lia | done]. }
    destruct (transform_entry dialect i row) as [entry|e] eqn:Hentry; simpl.
    + rewrite IH by done. split.
      * intros (rows & -> & Hloop). exists (row :: rows). simpl.
        by rewrite Hentry.
      * intros (rows & Hrows & Hloop).
        destruct (records_from [] rest) as [rows'|]; [|done]. simplify_eq/=.
        rewrite Hentry in Hloop. by exists rows'.
    + split; [done|]. intros (rows & Hrows & Hloop).
      destruct (records_from [] rest) as [rows'|]; [|done]. simplify_eq/=.
      by rewrite Hentry in Hloop.
  - split.
    + intros [= <-]. by exists [].
    + by intros (rows & [= <-] & [= <-]).
  - split; [done|]. by intros (rows & ? & _).
Qed.

Lemma next_loop_error file : ∀ read_lines e rest,
  RISFileReader.next_loop read_lines file = (RISFileReader.Raised e, rest) →
  e = KeyError.
Proof.
  assert (∀ lines e, RISFileReader.returned (RISFileReader.ris_to_dict lines)
                     = RISFileReader.Raised e → e = KeyError) as Hdict.
  { intros lines e. unfold RISFileReader.ris_to_dict.
    destruct (RISFileReader.ris_loop ∅ None lines) as [[content oldkey]|e'] eqn:Hrun;
      [done|]. simpl. intros [= <-]. revert Hrun.
    generalize (∅ : gmap string string) (None : option string).
    induction lines as [|line lines IH]; intros content oldkey Hrun; simpl in Hrun;
      [done|].
    repeat case_match; simplify_eq; eauto. }
  induction file as [|line file IH]; intros read_lines e rest Hnext; simpl in Hnext.
  - case_decide; simplify_eq. eauto.
  - case_decide; [simplify_eq; eauto | by eapply IH].
Qed.

Lemma transform_reader_loop_error dialect fuel : ∀ file i database e,
  transform_reader_loop fuel dialect i file database = Raise e →
  e = KeyError ∨ e = TypeError ∧ ¬ known dialect.
Proof.
  induction fuel as [|fuel IH]; intros file i database e Hrun; [done|].
  simpl in Hrun. fold (RISFileReader.__next__ file) in Hrun.
  destruct (RISFileReader.__next__ file) as [[row| |e'] rest] eqn:Hnext; [|done|].
  - destruct (transform_entry_outcome dialect i row)
      as [Hout|[[Hout ?]|(entry & Hout & _)]]; rewrite Hout in Hrun;
      simplify_eq/=; eauto.
  - simplify_eq. left. by eapply next_loop_error.
Qed.

(** X17. [transform] over the reader, which reads a record and
    transforms it before it reads the next, returns a database exactly
    when the reader can be read to its end and [transform] returns that
    database for the records read. *)
Theorem transform_ris_records (dialect : string) (file : list string)
    (database : list (gmap string string)) :
  transform_ris dialect file = OK database ↔
  ∃ rows, records file = OK rows ∧ transform dialect rows = OK database.
Proof.
  unfold transform_ris, transform. rewrite transform_reader_loop_records by lia.
  by setoid_rewrite records_records_from.
Qed.

(** X18. Over the reader, the pipeline of one of the three dialects can
    only fail with a key error, and it does fail with one when the file
    has a blank line as its first line or after a blank line: the record
    without fields that the reader returns there has no entry type. *)
Theorem transform_ris_stray_blank (dialect : string) (file : list string) :
  dialect ∈ ["ieee"; "scopus"; "pubmed"] →
  (∀ e, transform_ris dialect file = Raise e → e = KeyError) ∧
  (stray_blank file → transform_ris dialect file = Raise KeyError).
Proof.
  intros Hknown.
  assert (∀ e, transform_ris dialect file = Raise e → e = KeyError) as Herror.
  { intros e Hrun. by apply transform_reader_loop_error in Hrun as [?|[_ ?]]. }
  split; [done|]. intros (before & line & after & -> & Hline & Hprev).
  destruct (transform_ris dialect (before ++ line :: after)) as [database|e] eqn:Hrun.
  - exfalso. apply transform_reader_loop_records in Hrun as (rows & Hrows & Hloop);
      [|lia].
    apply records_from_stray in Hrows.
    2:{ exists before, line, after. split; [done|]. split; [done|].
        destruct Hprev as [->|?]; auto. }
    apply list_elem_of_lookup in Hrows as [j Hj].
    apply transform_loop_entries in Hloop as (news & _ & _ & Hnews).
    destruct (Hnews j ∅ Hj) as (entry & _ & Hentry).
    destruct (transform_entry_outcome dialect (0 + j) ∅)
      as [Hout|[[Hout ?]|(? & _ & _ & ?)]]; [congruence..|done].
  - f_equal. by apply Herror.
Qed.
End Pipeline.

(** ** Properties of the RIS reader *)

Section RISProperties.
Import RISFileReader.

Lemma ris_loop_app content oldkey lines1 lines2 :
  ris_loop content oldkey (lines1 ++ lines2) =
  match ris_loop content oldkey lines1 with
  | OK (content', oldkey') => ris_loop content' oldkey' lines2
  | Raise e => Raise e
  end.
Proof.
  revert content oldkey.
  induction lines1 as [|line lines1 IH]; intros content oldkey; simpl; [done|].
  case_decide.
  - destruct oldkey as [k|]; [|done]. destruct (content !! k); [|done]. apply IH.
  - destruct (content !! line_key line); apply IH.
Qed.

Lemma previous_key_cons line lines :
  previous_key (line :: lines) =
  match previous_key lines with
  | Some k => Some k
  | None => if decide (line_key line = "") then None else Some (line_key line)
  end.
Proof.
  unfold previous_key. rewrite fmap_cons, filter_cons.
  case_decide as Hk; case_decide as Hk'; try done.
  - by rewrite last_cons.
  - by destruct (last _).
Qed.

Lemma ris_loop_state lines : ∀ content oldkey content' oldkey',
  ris_inv content oldkey →
  ris_loop content oldkey lines = OK (content', oldkey') →
  ris_inv content' oldkey' ∧
  oldkey' = match previous_key lines with Some k => Some k | None => oldkey end.
Proof.
  induction lines as [|line lines IH]; intros content oldkey content' oldkey' Hinv Hrun.
  - simpl in Hrun. by simplify_eq.
  - rewrite previous_key_cons. simpl in Hrun. case_decide as Hk.
    + destruct oldkey as [k|]; [|done].
      destruct (content !! k) as [old|] eqn:Hold; [|done].
      apply IH in Hrun as [? ->]; [by destruct (previous_key lines)|].
      intros k' [= <-]. rewrite lookup_insert_eq. by eexists.
    + assert (∀ v, ris_inv (<[line_key line := v]> content) (Some (line_key line))) as Hnew.
      { intros v k' [= <-]. rewrite lookup_insert_eq. by eexists. }
      destruct (content !! line_key line);
        apply IH in Hrun as [? ->]; auto; by destruct (previous_key lines).
Qed.

Lemma ris_loop_total lines : ∀ content k,
  is_Some (content !! k) → ∃ st, ris_loop content (Some k) lines = OK st.
Proof.
  induction lines as [|line lines IH]; intros content k [old Hold]; simpl.
  - by eexists.
  - case_decide.
    + rewrite Hold. apply IH. rewrite lookup_insert_eq. by eexists.
    + destruct (content !! line_key line);
        apply IH; rewrite lookup_insert_eq; by eexists.
Qed.

Lemma ris_to_dict_OK lines content :
  ris_to_dict lines = OK content ↔ ∃ oldkey, ris_loop ∅ None lines = OK (content, oldkey).
Proof.
  unfold ris_to_dict. destruct (ris_loop ∅ None lines) as [[c o]|e]; simpl.
  - split; [intros [= <-]; by eexists | intros [? [= <- <-]]; done].
  - split; [done | by intros [? ?]].
Qed.

Lemma take_substring n s : Str.take n s = String.substring 0 n s.
Proof.
  revert s. induction n as [|n IH]; intros [|c s]; simpl; try done.
  by rewrite IH.
Qed.

Lemma substring_all s : String.substring 0 (String.length s) s = s.
Proof. induction s as [|c s IH]; simpl; [done | by rewrite IH]. Qed.

Lemma drop_substring n s :
  Str.drop n s = String.substring n (String.length s - n) s.
Proof.
  revert s. induction n as [|n IH]; intros s.
  - by rewrite Nat.sub_0_r, substring_all; destruct s.
  - destruct s as [|c s]; [done|]. apply IH.
Qed.

Lemma ris_to_dict_blank line lines :
  line_key line = "" → ris_to_dict (line :: lines) = Raise KeyError.
Proof. intros Hkey. unfold ris_to_dict. simpl. by rewrite decide_True. Qed.

Lemma ris_to_dict_keyed line lines :
  line_key line ≠ "" → ∃ content, ris_to_dict (line :: lines) = OK content.
Proof.
  intros Hkey. unfold ris_to_dict. simpl.
  rewrite decide_False, lookup_empty by done.
  destruct (ris_loop_total lines (<[line_key line := line_value line]> ∅) (line_key line))
    as [[content oldkey] ->].
  - rewrite lookup_insert_eq. by eexists.
  - by exists content.
Qed.

End RISProperties.

Section RISClaims.
  Import RISFileReader.

(** C5. Each line is decoded into the trimmed first four characters (the
    key) and the trimmed characters from position 6 on (the value).  After
    the lines read so far, a line with an empty key adds its value to the
    value of the previous field after one space; a line whose key the
    record has adds its value after ["; "]; a line with a new key starts a
    field.  The lines ["AU  - Smith, J."] and ["      continued"] give the
    field ["AU"] the value ["Smith, J. continued"]. *)
Theorem ris_to_dict_line_rule :
  (∀ (lines : list string) (line : string) (content : gmap string string),
     Forall (λ l, 6 ≤ String.length l) (lines ++ [line]) →
     ris_to_dict lines = OK content →
     let key := Str.strip (String.substring 0 4 line) in
     let value := Str.strip (String.substring 6 (String.length line - 6) line) in
     (key = "" → ∀ prev, previous_key lines = Some prev →
        ∃ old, content !! prev = Some old ∧
          ris_to_dict (lines ++ [line]) = OK (<[prev := old +:+ " " +:+ value]> content))
     ∧ (key ≠ "" → ∀ old, content !! key = Some old →
          ris_to_dict (lines ++ [line]) = OK (<[key := old +:+ "; " +:+ value]> content))
     ∧ (key ≠ "" → content !! key = None →
          ris_to_dict (lines ++ [line]) = OK (<[key := value]> content)))
  ∧ ris_to_dict ["AU  - Smith, J."; "      continued"]
    = OK {[ "AU" := "Smith, J. continued" ]}.
Proof.
  split; [|by vm_compute].
  intros lines line content _ [oldkey Hrun]%ris_to_dict_OK.
  rewrite <- take_substring, <- drop_substring.
  change (Str.strip (Str.take 4 line)) with (line_key line).
  change (Str.strip (Str.drop 6 line)) with (line_value line).
  destruct (ris_loop_state _ _ _ _ _ (λ k (H : None = Some k), match H with end : is_Some _) Hrun)
    as [Hinv ->].
  unfold ris_to_dict. rewrite ris_loop_app, Hrun. simpl.
  split; [|split].
  - intros Hkey prev Hprev. rewrite Hprev in Hinv |- *.
    destruct (Hinv prev eq_refl) as [old Hold]. exists old. split; [done|].
    rewrite decide_True by done. by rewrite Hold.
  - intros Hkey old Hold. rewrite decide_False by done. by rewrite Hold.
  - intros Hkey Hnone. rewrite decide_False by done. by rewrite Hnone.
Qed.

(** C10. When the first line of a record has a blank key portion,
    [ris_to_dict] raises a key-lookup error (the previous key is still
    [None]); when it has a key, [ris_to_dict] returns a record, whatever
    the lines that follow. *)
Theorem ris_to_dict_first_line (line : string) (lines : list string) :
  (line_key line = "" → ris_to_dict (line :: lines) = Raise KeyError) ∧
  (line_key line ≠ "" → ∃ content, ris_to_dict (line :: lines) = OK content).
Proof. split; [apply ris_to_dict_blank | apply ris_to_dict_keyed]. Qed.

End RISClaims.

(** ** Properties of the cleaners *)

Lemma pubmed_doi_last ids : pubmed_doi ids = doi_of_token <$> last (doi_tokens ids).
Proof.
  unfold pubmed_doi, doi_tokens.
  induction (Str.split ";" ids) as [|article_id tokens IH] using rev_ind; [done|].
  rewrite foldl_app, filter_app, filter_cons, filter_nil. simpl.
  unfold pubmed_doi_step at 1.
  destruct (decide (is_doi_token article_id)) as [Hends|Hends]; unfold is_doi_token in Hends.
  - rewrite Hends. by rewrite last_snoc.
  - apply not_true_is_false in Hends. rewrite Hends. by rewrite app_nil_r.
Qed.

(** C3. On ["Smith, J., Doe"] the loop of [scopus_author_canonicalize]
    stops before the last token: the result is ["Smith, J."], and the
    author ["Doe"] is lost. *)
Theorem scopus_author_trailing_last_name :
  scopus_author_canonicalize "Smith, J., Doe" = Some "Smith, J." ∧
  scopus_author_canonicalize "Smith, J., Doe" ≠ Some "Smith, J. and Doe".
Proof. by vm_compute. Qed.

(** C6. For an entry with an ["ENTRYTYPE"] field and one of the three
    dialects, [clean_entry] returns an entry of the same type that has no
    ["booktitle"] field when the type is ["article"], and no ["journal"]
    field otherwise. *)
Theorem clean_entry_venue (entry : gmap string string) (dialect entrytype : string) :
  entry !! "ENTRYTYPE" = Some entrytype →
  dialect ∈ ["ieee"; "scopus"; "pubmed"] →
  ∃ cleaned, clean_entry entry dialect = OK cleaned ∧
    cleaned !! "ENTRYTYPE" = Some entrytype ∧
    (entrytype = "article" → cleaned !! "booktitle" = None) ∧
    (entrytype ≠ "article" → cleaned !! "journal" = None).
Proof.
  intros Htype Hdialect. unfold clean_entry. rewrite Htype.
  set (venue := if decide (entrytype = "article") then _ else _).
  assert (venue !! "ENTRYTYPE" = Some entrytype ∧
          (entrytype = "article" → venue !! "booktitle" = None) ∧
          (entrytype ≠ "article" → venue !! "journal" = None)) as (Ht & Hb & Hj).
  { unfold venue. case_decide.
    - by rewrite lookup_delete_ne, lookup_delete_eq.
    - by rewrite lookup_delete_ne, lookup_delete_eq. }
  clearbody venue.
  rewrite !elem_of_cons, elem_of_nil in Hdialect.
  destruct Hdialect as [->|[->|[->|[]]]]; simpl.
  - eexists; split; [done|]. by rewrite !ieee_clean_entry_other.
  - eexists; split; [done|]. by rewrite !scopus_clean_entry_other.
  - eexists; split; [done|]. by rewrite !pubmed_clean_entry_other.
Qed.

(** C7 (amended). For an entry with a ["doi"] field, [pubmed_clean_entry]
    takes the last of the semicolon-separated tokens whose trimmed form
    ends in ["[doi]"], strips the suffix and trims the rest; the field
    becomes that rest when it is not empty, and is removed when it is
    empty or when no token ends in ["[doi]"].  The value
    ["12345 [pmid]; 10.1000/xyz [doi]"] gives ["10.1000/xyz"]. *)
Theorem pubmed_clean_entry_doi :
  (∀ (entry : gmap string string) (ids : string),
     entry !! "doi" = Some ids →
     pubmed_clean_entry entry !! "doi" =
       match last (doi_tokens ids) with
       | Some article_id =>
           if decide (doi_of_token article_id = "") then None
           else Some (doi_of_token article_id)
       | None => None
       end)
  ∧ pubmed_clean_entry {[ "doi" := "12345 [pmid]; 10.1000/xyz [doi]" ]} !! "doi"
    = Some "10.1000/xyz".
Proof.
  split; [|by vm_compute].
  intros entry ids Hdoi. unfold pubmed_clean_entry.
  set (authored := match entry !! "author" with Some _ => _ | None => _ end).
  assert (authored !! "doi" = Some ids) as ->.
  { unfold authored. destruct (entry !! "author"); [|done]. by rewrite lookup_insert_ne. }
  rewrite pubmed_doi_last.
  destruct (last (doi_tokens ids)) as [article_id|]; simpl.
  - case_decide.
    + case_match; [by rewrite lookup_insert_ne, lookup_delete_eq | by rewrite lookup_delete_eq].
    + case_match; [by rewrite lookup_insert_ne, lookup_insert_eq | by rewrite lookup_insert_eq].
  - case_match; [by rewrite lookup_insert_ne, lookup_delete_eq | by rewrite lookup_delete_eq].
Qed.

(** ** The fields of a record *)

(* [set_solver] clears hypotheses that are already gone. *)
#[local] Set Warnings "-clear-no-such-hyp".

Section RecordProperties.
Import RISFileReader.

Lemma ris_loop_dom lines : ∀ content oldkey content' oldkey',
  ris_loop content oldkey lines = OK (content', oldkey') →
  dom content' = dom content ∪ list_to_set (filter (λ key, key ≠ "") (line_key <$> lines)).
Proof.
  induction lines as [|line lines IH]; intros content oldkey content' oldkey' Hrun.
  - simpl in Hrun. simplify_eq. set_solver.
  - rewrite fmap_cons, filter_cons. simpl in Hrun.
    destruct (decide (line_key line = "")) as [Hkey|Hkey].
    + rewrite decide_False by tauto.
      destruct oldkey as [k|]; [|done].
      destruct (content !! k) as [old|] eqn:Hold; [|done].
      apply IH in Hrun as ->. rewrite dom_insert_L.
      apply (elem_of_dom_2 (D := gset string)) in Hold. set_solver.
    + rewrite decide_True by done.
      destruct (content !! line_key line);
        apply IH in Hrun as ->; rewrite dom_insert_L; set_solver.
Qed.

Lemma ris_loop_distinct lines : ∀ content oldkey,
  NoDup (line_key <$> lines) →
  Forall (λ line, line_key line ≠ "" ∧ content !! line_key line = None) lines →
  ∃ oldkey', ris_loop content oldkey lines
             = OK (list_to_map (line_item <$> lines) ∪ content, oldkey').
Proof.
  induction lines as [|line lines IH]; intros content oldkey Hdup Hkeys; simpl.
  - exists oldkey. by rewrite (left_id ∅ (∪)).
  - apply NoDup_cons in Hdup as [Hfresh Hdup].
    apply Forall_cons in Hkeys as [[Hkey Hnone] Hkeys].
    rewrite decide_False, Hnone by done.
    destruct (IH (<[line_key line := line_value line]> content) (Some (line_key line)))
      as [oldkey' ->]; [done| |].
    + rewrite Forall_forall in Hkeys |- *. intros l Hl.
      split; [by apply Hkeys|]. rewrite lookup_insert_ne; [by apply Hkeys|].
      intros Heq. apply Hfresh. rewrite Heq. by apply list_elem_of_fmap_2.
    + exists oldkey'. do 2 f_equal.
      rewrite <- insert_union_r, insert_union_l; [done|].
      apply not_elem_of_list_to_map_1.
      by rewrite <- list_fmap_compose.
Qed.

(** X3. The fields of the record that [ris_to_dict] returns are the keys
    of its lines that are not empty: no field has the empty key, and no
    key of a line is left out. *)
Theorem ris_to_dict_fields (lines : list string) (content : gmap string string) :
  ris_to_dict lines = OK content →
  dom content = list_to_set (filter (λ key, key ≠ "") (line_key <$> lines)) ∧
  content !! "" = None.
Proof.
  intros [oldkey Hrun]%ris_to_dict_OK. apply ris_loop_dom in Hrun.
  rewrite dom_empty_L, (left_id_L ∅ (∪)) in Hrun. split; [done|].
  apply (not_elem_of_dom (D := gset string)). rewrite Hrun.
  rewrite elem_of_list_to_set, list_elem_of_filter. tauto.
Qed.

(** X4. When the lines of a record have keys that are not empty and all
    different, the record maps the key of each line to the value of that
    line. *)
Theorem ris_to_dict_distinct_keys (lines : list string) :
  NoDup (line_key <$> lines) →
  Forall (λ line, line_key line ≠ "") lines →
  ris_to_dict lines = OK (list_to_map (line_item <$> lines)) ∧
  ∀ line, line ∈ lines →
    (list_to_map (line_item <$> lines) : gmap string string) !! line_key line
    = Some (line_value line).
Proof.
  intros Hdup Hkeys. split.
  - destruct (ris_loop_distinct lines ∅ None Hdup) as [oldkey Hrun].
    { eapply Forall_impl; [done|]. intros line ?. by rewrite lookup_empty. }
    unfold ris_to_dict. rewrite Hrun. simpl. by rewrite (right_id ∅ (∪)).
  - intros line Hline. apply elem_of_list_to_map_1.
    + by rewrite <- list_fmap_compose.
    + by apply (list_elem_of_fmap_2 line_item).
Qed.

End RecordProperties.

(** ** More on the string methods *)

Lemma append_cons c s1 s2 : String c s1 +:+ s2 = String c (s1 +:+ s2).
Proof. done. Qed.

Lemma append_nil_r s : s +:+ "" = s.
Proof. induction s as [|c s IH]; [done | by rewrite append_cons, IH]. Qed.

Lemma append_assoc s1 s2 s3 : (s1 +:+ s2) +:+ s3 = s1 +:+ (s2 +:+ s3).
Proof. induction s1 as [|c s1 IH]; [done | by rewrite !append_cons, IH]. Qed.

Lemma contains_cons sub c s :
  Str.contains sub (String c s) = false →
  String.prefix sub (String c s) = false ∧ Str.contains sub s = false.
Proof. simpl. by intros [? ?]%orb_false_elim. Qed.

Lemma split_go_nonempty sep skip cur s : Str.split_go sep skip cur s ≠ [].
Proof.
  revert skip cur. induction s as [|c s IH]; intros skip cur;
    cbn [Str.split_go]; [done|].
  destruct skip; [|apply IH]. destruct (String.prefix sep (String c s)); [done | apply IH].
Qed.

Lemma join_cons sep x l : l ≠ [] → Str.join sep (x :: l) = x +:+ sep +:+ Str.join sep l.
Proof. by destruct l. Qed.

(** [s.replace(old, new)] is [new.join(s.split(old))]. *)
Lemma replace_go_join old new s : ∀ skip cur,
  Str.join new (Str.split_go old skip cur s) = cur +:+ Str.replace_go old new skip s.
Proof.
  induction s as [|c s IH]; intros skip cur; cbn [Str.split_go Str.replace_go Str.join].
  - by rewrite append_nil_r.
  - destruct skip as [|skip]; [|apply IH].
    destruct (String.prefix old (String c s)).
    + rewrite join_cons by apply split_go_nonempty. by rewrite IH.
    + by rewrite IH, append_assoc.
Qed.

Lemma replace_join old new s :
  Str.replace old new s = Str.join new (Str.split old s).
Proof. unfold Str.replace, Str.split. by rewrite replace_go_join. Qed.

(** A string that does not have the separator is one piece. *)
Lemma split_go_none sep s : ∀ cur,
  Str.contains sep s = false → Str.split_go sep 0 cur s = [cur +:+ s].
Proof.
  induction s as [|c s IH]; intros cur Hnone; cbn [Str.split_go].
  - by rewrite append_nil_r.
  - apply contains_cons in Hnone as [-> Hnone].
    by rewrite IH, append_assoc.
Qed.

Lemma split_none sep s : Str.contains sep s = false → Str.split sep s = [s].
Proof. intros Hnone. unfold Str.split. by rewrite split_go_none. Qed.

Lemma prefix_comma rest : String.prefix "," (String "," rest) = true.
Proof. simpl. by destruct rest. Qed.

(** Splitting at commas what was joined with commas. *)
Lemma split_go_comma_token token : ∀ cur rest,
  Str.contains "," token = false →
  Str.split_go "," 0 cur (token +:+ "," +:+ rest)
  = (cur +:+ token) :: Str.split_go "," 0 "" rest.
Proof.
  induction token as [|c token IH]; intros cur rest Hnone.
  - rewrite append_nil_r. change ("" +:+ "," +:+ rest) with (String "," rest).
    cbn [Str.split_go]. by rewrite prefix_comma.
  - apply contains_cons in Hnone as [Hprefix Hnone].
    rewrite append_cons. cbn [Str.split_go].
    assert (String.prefix "," (String c (token +:+ "," +:+ rest)) = false) as ->.
    { cbn [String.prefix] in *. destruct (ascii_dec "," c); [by destruct token | done]. }
    by rewrite IH, append_assoc.
Qed.

Lemma split_join_comma tokens :
  tokens ≠ [] → Forall (λ token, Str.contains "," token = false) tokens →
  Str.split "," (Str.join "," tokens) = tokens.
Proof.
  unfold Str.split. induction tokens as [|token tokens IH]; [done|].
  intros _ [Htoken Htokens]%Forall_cons.
  destruct tokens as [|token' tokens].
  - by rewrite split_go_none.
  - rewrite join_cons, split_go_comma_token by done. by rewrite IH.
Qed.

Lemma contains_append sub s1 s2 :
  Str.contains sub s2 = true → Str.contains sub (s1 +:+ s2) = true.
Proof.
  intros Hsub. induction s1 as [|c s1 IH]; [done|].
  rewrite append_cons. simpl. rewrite IH. apply orb_true_r.
Qed.

Lemma take_length n s : String.length (Str.take n s) = n `min` String.length s.
Proof.
  revert s. induction n as [|n IH]; intros [|c s]; simpl; try done.
  by rewrite IH.
Qed.

Lemma take_prefix n s : String.prefix (Str.take n s) s = true.
Proof.
  revert s. induction n as [|n IH]; intros [|c s]; simpl; try done.
  destruct (ascii_dec c c); [apply IH | done].
Qed.

Lemma take_all n s : String.length s ≤ n → Str.take n s = s.
Proof.
  revert s. induction n as [|n IH]; intros [|c s]; simpl; try done; [lia|].
  intros ?. rewrite IH; [done | lia].
Qed.

(** ** More on the cleaners *)

Lemma ieee_clean_entry_sub entry k :
  is_Some (ieee_clean_entry entry !! k) → is_Some (entry !! k).
Proof.
  unfold ieee_clean_entry. destruct (entry !! "author") eqn:Hauthor; [|done].
  rewrite lookup_insert. case_decide; [subst; by rewrite Hauthor | done].
Qed.

Lemma scopus_clean_entry_sub entry k :
  is_Some (scopus_clean_entry entry !! k) → is_Some (entry !! k).
Proof.
  unfold scopus_clean_entry. destruct (entry !! "author") eqn:Hauthor; [|done].
  destruct (scopus_author_canonicalize _).
  - rewrite lookup_insert. case_decide; [subst; by rewrite Hauthor | done].
  - rewrite lookup_delete. by case_decide; [intros []|].
Qed.

Lemma pubmed_clean_entry_sub entry k :
  is_Some (pubmed_clean_entry entry !! k) → is_Some (entry !! k).
Proof.
  assert (∀ (e : gmap string string) k' v,
            is_Some (e !! k') → is_Some (<[k' := v]> e !! k) → is_Some (e !! k)) as Hins.
  { intros e k' v Hk'. rewrite lookup_insert. by case_decide; [subst|]. }
  assert (∀ (e : gmap string string) k',
            is_Some (delete k' e !! k) → is_Some (e !! k)) as Hdel.
  { intros e k'. rewrite lookup_delete. by case_decide; [intros []|]. }
  unfold pubmed_clean_entry.
  set (e1 := match entry !! "author" with Some _ => _ | None => _ end).
  set (e2 := match e1 !! "doi" with Some _ => _ | None => _ end).
  assert (is_Some (e1 !! k) → is_Some (entry !! k)) as H1.
  { unfold e1. destruct (entry !! "author") eqn:Heq; [|done]. apply Hins. by rewrite Heq. }
  assert (is_Some (e2 !! k) → is_Some (e1 !! k)) as H2.
  { unfold e2. destruct (e1 !! "doi") eqn:Heq; [|done].
    destruct (truthy _); [apply Hins; by rewrite Heq | apply Hdel]. }
  destruct (e2 !! "year") eqn:Heq; [|by auto].
  intros H3. apply H1, H2. eapply Hins; [|done]. by rewrite Heq.
Qed.

(** X5. [ieee_clean_entry] and [pubmed_clean_entry] replace the author
    field by its pieces between ["; "], joined with [" and "]: an author
    field without ["; "] stays as it is. *)
Theorem clean_entry_author_separator (entry : gmap string string) (author : string) :
  entry !! "author" = Some author →
  ieee_clean_entry entry !! "author"
  = Some (Str.join " and " (Str.split "; " author)) ∧
  pubmed_clean_entry entry !! "author"
  = Some (Str.join " and " (Str.split "; " author)) ∧
  (Str.contains "; " author = false → ieee_clean_entry entry = entry).
Proof.
  intros Hauthor. rewrite <- replace_join. split; [|split].
  - unfold ieee_clean_entry. by rewrite Hauthor, lookup_insert_eq.
  - unfold pubmed_clean_entry. rewrite Hauthor.
    repeat (case_match; rewrite ?lookup_insert_ne, ?lookup_delete_ne by done);
      by rewrite lookup_insert_eq.
  - intros Hnone. unfold ieee_clean_entry. rewrite Hauthor.
    apply insert_id. by rewrite replace_join, split_none.
Qed.

(** X6. After [scopus_clean_entry] the entry has no author field exactly
    when it had none or had the placeholder of Scopus for a missing
    author; every other field is as it was. *)
Theorem scopus_clean_entry_author (entry : gmap string string) :
  (scopus_clean_entry entry !! "author" = None ↔
   entry !! "author" = None ∨
   entry !! "author" = Some "[No author name available]") ∧
  (∀ k, k ≠ "author" → scopus_clean_entry entry !! k = entry !! k).
Proof.
  split; [|intros k; apply scopus_clean_entry_other].
  unfold scopus_clean_entry, scopus_author_canonicalize.
  destruct (entry !! "author") as [authors|] eqn:Hauthors;
    [|rewrite Hauthors; split; auto].
  case_decide as Hplace.
  - subst. rewrite lookup_delete_eq. split; auto.
  - rewrite lookup_insert_eq. split; [done|]. intros [?|?]; congruence.
Qed.

(** X7. An author field without a comma that is not the placeholder has
    one token only, which the loop of [scopus_author_canonicalize] does
    not reach: the result is the empty string, and the name is lost. *)
Theorem scopus_author_without_comma (authors : string) :
  Str.contains "," authors = false →
  authors ≠ "[No author name available]" →
  scopus_author_canonicalize authors = Some "" ∧
  ∀ entry : gmap string string,
    entry !! "author" = Some authors →
    scopus_clean_entry entry !! "author" = Some "".
Proof.
  intros Hcomma Hplace.
  assert (scopus_author_canonicalize authors = Some "") as Hcanon.
  { unfold scopus_author_canonicalize. rewrite decide_False by done.
    by rewrite split_none. }
  split; [done|]. intros entry Hentry.
  unfold scopus_clean_entry. by rewrite Hentry, Hcanon, lookup_insert_eq.
Qed.

Lemma scopus_names_complete authors :
  Forall (λ author : string * string, Str.contains "." author.2 = true) authors →
  scopus_names (scopus_tokens authors) = scopus_author <$> authors.
Proof.
  induction 1 as [|[last_name first_name] authors Hfirst _ IH]; [done|].
  simpl in Hfirst.
  change (scopus_tokens ((last_name, first_name) :: authors))
    with (last_name :: first_name :: scopus_tokens authors).
  cbn [scopus_names]. rewrite Hfirst. simpl. by rewrite IH.
Qed.

Lemma scopus_tokens_commas authors :
  Forall (λ author : string * string,
            Str.contains "," author.1 = false ∧ Str.contains "," author.2 = false)
    authors →
  Forall (λ token, Str.contains "," token = false) (scopus_tokens authors).
Proof.
  induction 1 as [|[last_name first_name] authors [? ?] _ IH]; [constructor|].
  by repeat constructor.
Qed.

(** X8. When every author of a Scopus export has a last name and a first
    name without a comma, and the first name has a period, the author
    string [last, first, last, first, ...] becomes the list of the
    [last, first] pairs joined with [" and "]: no author is lost. *)
Theorem scopus_author_complete (authors : list (string * string)) :
  authors ≠ [] →
  Forall (λ author : string * string,
            Str.contains "," author.1 = false ∧
            Str.contains "," author.2 = false ∧
            Str.contains "." author.2 = true) authors →
  scopus_author_canonicalize (Str.join "," (scopus_tokens authors))
  = Some (Str.join " and " (scopus_author <$> authors)).
Proof.
  intros Hne Hauthors. unfold scopus_author_canonicalize.
  rewrite decide_False.
  - rewrite split_join_comma.
    + rewrite scopus_names_complete; [done|].
      eapply Forall_impl; [done|]. by intros ? (_ & _ & ?).
    + by destruct authors as [|[? ?] ?].
    + apply scopus_tokens_commas.
      eapply Forall_impl; [done|]. by intros ? (? & ? & _).
  - destruct authors as [|[last_name first_name] authors]; [done|].
    change (scopus_tokens ((last_name, first_name) :: authors))
      with (last_name :: first_name :: scopus_tokens authors).
    rewrite join_cons by done. intros Hplace.
    assert (Str.contains "," (last_name +:+ "," +:+
              Str.join "," (first_name :: scopus_tokens authors)) = true) as Hcomma.
    { apply contains_append. rewrite append_cons.
      cbn [Str.contains]. by rewrite prefix_comma. }
    rewrite Hplace in Hcomma. by vm_compute in Hcomma.
Qed.

(** X9. [pubmed_clean_entry] cuts the year to its first four characters:
    the new value starts the old one and is four characters long, or the
    whole of it when the old value is shorter. *)
Theorem pubmed_clean_entry_year (entry : gmap string string) (year : string) :
  entry !! "year" = Some year →
  ∃ cut, pubmed_clean_entry entry !! "year" = Some cut ∧
    String.prefix cut year = true ∧
    String.length cut = 4 `min` String.length year ∧
    (String.length year ≤ 4 → cut = year).
Proof.
  intros Hyear. exists (Str.take 4 year).
  split; [|split; [apply take_prefix | split; [apply take_length | apply take_all]]].
  unfold pubmed_clean_entry.
  set (e1 := match entry !! "author" with Some _ => _ | None => _ end).
  set (e2 := match e1 !! "doi" with Some _ => _ | None => _ end).
  assert (e1 !! "year" = Some year) as H1.
  { unfold e1. destruct (entry !! "author"); [|done]. by rewrite lookup_insert_ne. }
  assert (e2 !! "year" = Some year) as ->.
  { unfold e2. destruct (e1 !! "doi"); [|done].
    destruct (truthy _); [by rewrite lookup_insert_ne | by rewrite lookup_delete_ne]. }
  by rewrite lookup_insert_eq.
Qed.

(** X10. [clean_entry] adds no field, and it leaves every field as it was
    but the two venue fields and the author, the DOI and the year. *)
Theorem clean_entry_fields (entry cleaned : gmap string string) (dialect : string) :
  clean_entry entry dialect = OK cleaned →
  dom cleaned ⊆ dom entry ∧
  ∀ k, k ∉ ["booktitle"; "journal"; "author"; "doi"; "year"] →
       cleaned !! k = entry !! k.
Proof.
  intros Hclean. split; [|intros k; by apply (clean_entry_other _ dialect)].
  intros k. rewrite !elem_of_dom. revert Hclean. unfold clean_entry.
  destruct (entry !! "ENTRYTYPE") as [entrytype|]; [|done].
  set (venue := if decide (entrytype = "article") then _ else _).
  assert (is_Some (venue !! k) → is_Some (entry !! k)) as Hvenue.
  { unfold venue. case_decide; rewrite lookup_delete; by case_decide; [intros []|]. }
  clearbody venue.
  repeat case_decide; intros [= <-]; intros Hk; apply Hvenue;
    eauto using ieee_clean_entry_sub, scopus_clean_entry_sub, pubmed_clean_entry_sub.
Qed.

(** ** [batched] *)

Lemma batched_loop_nil {A} fuel n : batched_loop (A := A) fuel n [] = [].
Proof. destruct fuel; [done|]. simpl. by rewrite take_nil. Qed.

Lemma batched_loop_partition {A} fuel : ∀ n (it : list A),
  1 ≤ n → length it < fuel →
  concat (batched_loop fuel n it) = it ∧
  Forall (λ batch, 1 ≤ length batch ≤ n) (batched_loop fuel n it) ∧
  (∀ i batch, batched_loop fuel n it !! i = Some batch →
     S i < length (batched_loop fuel n it) → length batch = n) ∧
  (batched_loop fuel n it = [] → it = []).
Proof.
  induction fuel as [|fuel IH]; intros n it Hn Hfuel; [lia|].
  destruct it as [|x it]; [by rewrite batched_loop_nil|].
  destruct n as [|n]; [lia|].
  cbn [batched_loop]. rewrite firstn_cons.
  destruct (IH (S n) (drop (S n) (x :: it)) Hn) as (Hconcat & Hlen & Hfull & Hnil).
  { rewrite length_drop. simpl in *. lia. }
  split; [|split; [|split; [|done]]].
  - cbn [concat]. rewrite Hconcat, <- firstn_cons. apply take_drop.
  - constructor; [|done]. rewrite <- firstn_cons, length_take. simpl. lia.
  - intros [|i] batch Hbatch Hmore.
    + injection Hbatch as <-. rewrite <- firstn_cons, length_take.
      destruct (batched_loop fuel (S n) (drop (S n) (x :: it))) eqn:Hrest;
        [cbn [length] in Hmore; lia|].
      assert (drop (S n) (x :: it) ≠ []) as Hdrop.
      { intros Heq. by rewrite Heq, batched_loop_nil in Hrest. }
      assert (length (drop (S n) (x :: it)) ≠ 0) as Hpos by by destruct (drop _ _).
      rewrite length_drop in Hpos. lia.
    + apply (Hfull i batch Hbatch). cbn [length] in Hmore. lia.
Qed.

(** X11. [batched] raises a value error for a batch size below one.
    Otherwise its batches, put together, are the items of the iterable in
    their order; no batch is empty or longer than [n], and every batch
    but the last has [n] items. *)
Theorem batched_partition {A} (iterable : list A) (n : nat) :
  (n < 1 → batched iterable n = Raise ValueError) ∧
  (1 ≤ n → ∃ batches,
     batched iterable n = OK batches ∧
     concat batches = iterable ∧
     Forall (λ batch, 1 ≤ length batch ≤ n) batches ∧
     ∀ i batch, batches !! i = Some batch → S i < length batches →
                length batch = n).
Proof.
  unfold batched. split; intros Hn.
  - by rewrite decide_True.
  - rewrite decide_False by lia. eexists. split; [done|].
    destruct (batched_loop_partition (S (length iterable)) n iterable)
      as (? & ? & ? & _); auto.
Qed.
(** ** The properties at work on concrete inputs

    Each property that has a premise is applied to an input that meets
    it; each property of the design document that the program does not
    have is shown to fail on an input. *)

Lemma sample_leaves_id :
  leaves_id sample_syntax_mapping sample_semantic_mapping "pubmed".
Proof.
  split.
  - intros syntax_map Hmap. unfold sample_syntax_mapping in Hmap.
    rewrite lookup_insert_eq in Hmap. injection Hmap as <-.
    intros synmap key bib_key Hsynmap Hitem. unfold pubmed_rules in Hsynmap.
    rewrite !elem_of_cons, elem_of_nil in Hsynmap.
    destruct Hsynmap as [->|[->|[->|[->|[->|[->|[]]]]]]];
      apply list_elem_of_singleton in Hitem; by simplify_eq.
  - intros sm Hmap. unfold sample_semantic_mapping in Hmap.
    rewrite lookup_insert_eq in Hmap. injection Hmap as <-.
    by apply lookup_singleton_ne.
Qed.

(** Two PubMed records through the whole pipeline. *)
Lemma transform_identifiers_witness :
  transform sample_syntax_mapping sample_semantic_mapping sample_first_of
    "pubmed" sample_rows = OK sample_database ∧
  length sample_database = length sample_rows ∧
  (∀ i entry, sample_database !! i = Some entry →
     entry !! "ID" = Some ("pubmed" +:+ "_" +:+ Str.of_nat i)).
Proof.
  assert (transform sample_syntax_mapping sample_semantic_mapping sample_first_of
            "pubmed" sample_rows = OK sample_database) as Hrun by run.
  destruct (transform_identifiers _ _ _ _ _ _ Hrun) as (Hlen & _ & Hids).
  split; [exact Hrun|]. split; [exact Hlen|].
  exact (proj1 (Hids sample_leaves_id)).
Defined.

(** C1, as stated, fails: a rule of the syntax map with target ["ID"]
    replaces the identifier of the entry. *)
Lemma transform_identifier_overwritten :
  ∃ entry,
    transform keyed_syntax_mapping sample_semantic_mapping sample_first_of
      "ieee" [keyed_row] = OK [entry] ∧
    entry !! "ID" = Some "smith2020" ∧
    entry !! "ID" ≠ Some ("ieee" +:+ "_" +:+ Str.of_nat 0).
Proof.
  exists {[ "ID" := "smith2020"; "title" := "Title A"; "ENTRYTYPE" := "article" ]}.
  split; [run|]. split; [run|].
  vm_compute. discriminate.
Qed.

(** C2. The reader does not do what the claim says.  At the end of the
    input with no line accumulated [__next__] signals the end of the
    sequence, but at a blank line it returns the record of the lines
    accumulated without looking at their number: on a blank line that
    follows a blank line it returns a record without fields. *)
Lemma next_yields_empty_record :
  RISFileReader.__next__ ["TI  - Title A" +:+ LF; LF; LF; "TI  - Title B" +:+ LF]
  = (RISFileReader.Yield {[ "TI" := "Title A" ]}, [LF; "TI  - Title B" +:+ LF]) ∧
  RISFileReader.__next__ [LF; "TI  - Title B" +:+ LF]
  = (RISFileReader.Yield ∅, ["TI  - Title B" +:+ LF]) ∧
  RISFileReader.__next__ [] = (RISFileReader.StopIteration, []).
Proof. by vm_compute. Qed.

(** An entry type outside the vocabulary, and one inside it. *)
Lemma semantic_map_strict_witness :
  semantic_map sample_semantic_mapping
    {[ "ID" := "ieee_0"; "ENTRYTYPE" := "IEEE Standards" ]} "ieee" = Raise KeyError ∧
  ∃ mapped,
    semantic_map sample_semantic_mapping
      {[ "ID" := "ieee_0"; "ENTRYTYPE" := "IEEE Journals" ]} "ieee" = OK mapped ∧
    mapped !! "ENTRYTYPE" = Some "article" ∧ mapped !! "ID" = Some "ieee_0".
Proof.
  assert (get_semantic_map sample_semantic_mapping "ieee"
          = OK {[ "ENTRYTYPE" := ieee_types ]}) as Hmap by run.
  split.
  - apply (proj1 (semantic_map_strict sample_semantic_mapping _ _ _ Hmap)).
    exists "ENTRYTYPE", "IEEE Standards", ieee_types.
    repeat split; run.
  - destruct (proj2 (semantic_map_strict sample_semantic_mapping
        {[ "ID" := "ieee_0"; "ENTRYTYPE" := "IEEE Journals" ]} _ _ Hmap))
      as (mapped & Hrun & Hlook).
    + intros key value values Hentry [<- <-]%lookup_singleton_Some.
      vm_compute in Hentry. injection Hentry as <-. exists "article". run.
    + exists mapped. split; [exact Hrun|].
      rewrite (Hlook "ENTRYTYPE"), (Hlook "ID"). split; run.
Defined.

(** A continuation line after an author line. *)
Lemma ris_to_dict_line_rule_witness :
  ∃ old, ({[ "AU" := "Smith, J." ]} : gmap string string) !! "AU" = Some old ∧
    RISFileReader.ris_to_dict (["AU  - Smith, J."] ++ ["      continued"])
    = OK (<["AU" := old +:+ " " +:+ "continued"]> {[ "AU" := "Smith, J." ]}).
Proof.
  apply (proj1 ris_to_dict_line_rule ["AU  - Smith, J."] "      continued"
           {[ "AU" := "Smith, J." ]}).
  - repeat constructor; simpl; lia.
  - run.
  - run.
  - run.
Defined.

(** An article that came with both venue fields. *)
Lemma clean_entry_venue_witness :
  ∃ cleaned,
    clean_entry {[ "ENTRYTYPE" := "article"; "journal" := "Journal X";
                   "booktitle" := "Proceedings Y" ]} "scopus" = OK cleaned ∧
    cleaned !! "ENTRYTYPE" = Some "article" ∧
    ("article" = "article" → cleaned !! "booktitle" = None) ∧
    ("article" ≠ "article" → cleaned !! "journal" = None).
Proof.
  apply clean_entry_venue.
  - run.
  - rewrite !elem_of_cons. auto.
Defined.

(** Two tokens end in ["[doi]"]: the last one is taken. *)
Lemma pubmed_clean_entry_doi_witness :
  pubmed_clean_entry {[ "doi" := "999 [pii]; 10.1000/abc [doi]; 10.1000/xyz [doi] " ]}
    !! "doi" = Some "10.1000/xyz".
Proof.
  rewrite (proj1 pubmed_clean_entry_doi _
             "999 [pii]; 10.1000/abc [doi]; 10.1000/xyz [doi] ").
  - run.
  - run.
Defined.

(** C7, as stated, fails: a token ends in ["[doi]"], and the field is
    removed where the claim sets it to the (empty) rest of the token. *)
Lemma pubmed_doi_empty_remainder :
  doi_tokens "12345 [pmid]; [doi]" = [" [doi]"] ∧
  doi_of_token " [doi]" = "" ∧
  pubmed_clean_entry {[ "doi" := "12345 [pmid]; [doi]" ]} !! "doi" = None.
Proof. repeat split; run. Qed.

(** A second pass of the IEEE rules over a row. *)
Lemma schema_map_idempotent_witness :
  ∃ entry,
    schema_map sample_syntax_mapping 0 (Some keyed_row) "ieee" = OK entry ∧
    syntax_loop ieee_rules (Some keyed_row) entry = OK entry.
Proof.
  apply schema_map_idempotent. run.
Defined.

(** An entry without a type, and the stages of the second PubMed record. *)
Lemma clean_entry_needs_entrytype_witness :
  clean_entry {[ "ID" := "ieee_0"; "title" := "Title A" ]} "ieee" = Raise KeyError ∧
  ∃ pre mapped canonical,
    preprocess_entry sample_semantic_mapping sample_first_of
      {[ "TI" := "Title B"; "AID" := "999 [pii]"; "PT" := "Letter" ]} "pubmed" = OK pre ∧
    schema_map sample_syntax_mapping 1 pre "pubmed" = OK mapped ∧
    semantic_map sample_semantic_mapping mapped "pubmed" = OK canonical ∧
    is_Some (canonical !! "ENTRYTYPE").
Proof.
  destruct (clean_entry_needs_entrytype sample_syntax_mapping sample_semantic_mapping
              sample_first_of) as [Hclean Hpipeline].
  split.
  - apply Hclean. run.
  - apply (Hpipeline "pubmed" sample_rows sample_database); run.
Defined.

(** A record that starts with a continuation line, and one that does not. *)
Lemma ris_to_dict_first_line_witness :
  RISFileReader.ris_to_dict ["      continued"; "AU  - Smith, J."] = Raise KeyError ∧
  ∃ content, RISFileReader.ris_to_dict ["AU  - Smith, J."; "      continued"] = OK content.
Proof.
  split.
  - apply (proj1 (ris_to_dict_first_line _ _)). run.
  - apply (proj2 (ris_to_dict_first_line _ _)). vm_compute. discriminate.
Defined.

(** ** The further properties at work on concrete inputs *)

Lemma sample_first_of_picks : picks_element sample_first_of.
Proof.
  intros all_pts found_pts Hne. unfold sample_first_of.
  destruct (elements found_pts) as [|pt pts] eqn:Helements.
  - by apply elements_empty_inv, leibniz_equiv in Helements.
  - simpl. apply elem_of_elements. rewrite Helements. by left.
Qed.

Lemma next_reads_forward_witness :
  ∃ read, ["TI  - Title A" +:+ LF; LF; "TI  - Title B" +:+ LF]
          = read ++ ["TI  - Title B" +:+ LF] ∧
    (["TI  - Title A" +:+ LF; LF; "TI  - Title B" +:+ LF] ≠ [] → read ≠ []).
Proof.
  apply (next_reads_forward _ (RISFileReader.Yield {[ "TI" := "Title A" ]})). run.
Defined.

Lemma records_groups_witness :
  ∃ groups,
    concat groups = filter (λ l, ¬ blank l) sample_file ∧
    Forall2 (λ group entry, RISFileReader.ris_to_dict group = OK entry)
      groups sample_rows ∧
    length sample_rows = length (filter blank sample_file) +
      match last sample_file with
      | Some l => if decide (blank l) then 0 else 1
      | None => 0
      end.
Proof. apply records_groups. run. Defined.

Lemma ris_to_dict_fields_witness :
  dom ({[ "AU" := "Smith, J. continued"; "TI" := "Title A" ]} : gmap string string)
  = list_to_set (filter (λ key, key ≠ "")
      (RISFileReader.line_key <$>
         ["AU  - Smith, J."; "      continued"; "TI  - Title A"])) ∧
  ({[ "AU" := "Smith, J. continued"; "TI" := "Title A" ]} : gmap string string) !! ""
  = None.
Proof. apply ris_to_dict_fields. run. Defined.

Lemma ris_to_dict_distinct_keys_witness :
  RISFileReader.ris_to_dict ["AU  - Smith, J."; "TI  - Title A"]
  = OK (list_to_map (line_item <$> ["AU  - Smith, J."; "TI  - Title A"])).
Proof.
  apply ris_to_dict_distinct_keys.
  - apply (bool_decide_unpack _). vm_compute. exact I.
  - repeat constructor; vm_compute; discriminate.
Defined.

Lemma clean_entry_author_separator_witness :
  ieee_clean_entry {[ "author" := "Smith, J.; Doe, A." ]} !! "author"
  = Some (Str.join " and " (Str.split "; " "Smith, J.; Doe, A.")).
Proof. apply (clean_entry_author_separator _ "Smith, J.; Doe, A."). run. Defined.

Lemma scopus_clean_entry_author_witness :
  scopus_clean_entry {[ "author" := "[No author name available]"; "title" := "Title A" ]}
    !! "author" = None.
Proof.
  apply (proj1 (scopus_clean_entry_author _)). right. run.
Defined.

Lemma scopus_author_without_comma_witness :
  scopus_author_canonicalize "Doe" = Some "".
Proof.
  apply scopus_author_without_comma; [run | discriminate].
Defined.

Lemma scopus_author_complete_witness :
  scopus_author_canonicalize
    (Str.join "," (scopus_tokens [("Smith", " J."); (" Doe", " A.B.")]))
  = Some (Str.join " and " (scopus_author <$> [("Smith", " J."); (" Doe", " A.B.")])).
Proof.
  apply scopus_author_complete; [done|].
  repeat (apply Forall_cons_2; [repeat split; run|]). apply Forall_nil_2.
Defined.

Lemma pubmed_clean_entry_year_witness :
  ∃ cut, pubmed_clean_entry {[ "year" := "2020 Jan-Feb" ]} !! "year" = Some cut ∧
    String.prefix cut "2020 Jan-Feb" = true ∧
    String.length cut = 4 `min` String.length "2020 Jan-Feb" ∧
    (String.length "2020 Jan-Feb" ≤ 4 → cut = "2020 Jan-Feb").
Proof. apply pubmed_clean_entry_year. run. Defined.

Lemma clean_entry_fields_witness :
  dom ({[ "ENTRYTYPE" := "article"; "author" := "Smith, J."; "journal" := "Journal X" ]}
       : gmap string string)
  ⊆ dom ({[ "ENTRYTYPE" := "article"; "author" := "Smith, J., Doe";
            "journal" := "Journal X"; "booktitle" := "Journal X" ]}
         : gmap string string).
Proof.
  apply (clean_entry_fields _ _ "scopus"). run.
Defined.

Lemma batched_partition_witness :
  batched [1; 2; 3; 4; 5; 6; 7] 0 = Raise ValueError ∧
  ∃ batches, batched [1; 2; 3; 4; 5; 6; 7] 3 = OK batches ∧
    concat batches = [1; 2; 3; 4; 5; 6; 7] ∧
    Forall (λ batch, 1 ≤ length batch ≤ 3) batches ∧
    ∀ i batch, batches !! i = Some batch → S i < length batches → length batch = 3.
Proof.
  split.
  - apply (proj1 (batched_partition _ 0)). lia.
  - apply (proj2 (batched_partition _ 3)). lia.
Defined.

Lemma semantic_map_fields_witness :
  dom ({[ "ID" := "ieee_0"; "ENTRYTYPE" := "article" ]} : gmap string string)
  = dom ({[ "ID" := "ieee_0"; "ENTRYTYPE" := "IEEE Journals" ]} : gmap string string).
Proof.
  apply (semantic_map_fields sample_semantic_mapping _ _ "ieee"). run.
Defined.

Lemma schema_map_values_witness :
  schema_map sample_syntax_mapping 0 (Some keyed_row) "scopus" = Raise KeyError ∧
  ∃ entry, schema_map sample_syntax_mapping 0 (Some keyed_row) "ieee" = OK entry ∧
    entry !! "ENTRYTYPE" = Some "IEEE Journals".
Proof.
  split.
  - apply (proj1 (schema_map_values sample_syntax_mapping 0 keyed_row "scopus")). run.
  - destruct (proj2 (schema_map_values sample_syntax_mapping 0 keyed_row "ieee")
                ieee_rules) as (entry & Hrun & _ & Hlast); [run|].
    exists entry. split; [exact Hrun|].
    apply (Hlast [ [("Document Title", "title")]; [("Authors", "author")];
                   [("Publication Title", "journal")];
                   [("Publication Title", "booktitle")];
                   [("Publication Year", "year")] ]
                 "Document Identifier" "ENTRYTYPE" []).
    + reflexivity.
    + run.
    + discriminate.
    + intros synmap key' Hin. by apply elem_of_nil in Hin.
Defined.

Lemma transform_first_error_witness :
  ∃ j row, (sample_rows ++ [ {[ "TI" := "Title C" ]} ]) !! j = Some row ∧
    transform_entry sample_syntax_mapping sample_semantic_mapping sample_first_of
      "pubmed" j row = Raise KeyError ∧
    ∀ k row', k < j → (sample_rows ++ [ {[ "TI" := "Title C" ]} ]) !! k = Some row' →
      ∃ entry, transform_entry sample_syntax_mapping sample_semantic_mapping
                 sample_first_of "pubmed" k row' = OK entry.
Proof.
  apply (proj1 (transform_first_error sample_syntax_mapping sample_semantic_mapping
                  sample_first_of "pubmed" _ KeyError)). run.
Defined.

Lemma transform_unknown_dialect_witness :
  ∃ e, transform sample_syntax_mapping sample_semantic_mapping sample_first_of
         "wos" sample_rows = Raise e ∧
       (e = KeyError ∨ e = TypeError) ∧
       ∀ entries', entries' ≠ [] →
         transform sample_syntax_mapping sample_semantic_mapping sample_first_of
           "wos" entries' = Raise e.
Proof.
  apply (transform_unknown_dialect sample_syntax_mapping sample_semantic_mapping
           sample_first_of "wos" sample_rows).
  - rewrite !elem_of_cons, elem_of_nil. intros [?|[?|[?|[]]]]; discriminate.
  - discriminate.
Defined.

Lemma pubmed_preprocess_type_witness :
  pubmed_preprocess sample_semantic_mapping sample_first_of {[ "TI" := "Title C" ]}
  = Raise KeyError ∧
  ∃ pt, pubmed_preprocess sample_semantic_mapping sample_first_of
          {[ "PT" := "Letter; Review" ]}
        = OK (<["PT" := pt]> {[ "PT" := "Letter; Review" ]}) ∧
    (pt ∈ Str.split "; " "Letter; Review" ∧ is_Some (pubmed_types !! pt) ∨
     pt = "Journal Article" ∧
     ∀ t, t ∈ Str.split "; " "Letter; Review" → pubmed_types !! t = None).
Proof.
  split.
  - apply (proj1 (pubmed_preprocess_type sample_semantic_mapping sample_first_of _)).
    run.
  - apply (proj2 (pubmed_preprocess_type sample_semantic_mapping sample_first_of _)
             {[ "ENTRYTYPE" := pubmed_types ]}).
    + apply sample_first_of_picks.
    + run.
    + run.
    + run.
Defined.

Lemma transform_ris_records_witness :
  transform_ris sample_syntax_mapping sample_semantic_mapping sample_first_of
    "pubmed" sample_file = OK sample_database.
Proof.
  apply (proj2 (transform_ris_records sample_syntax_mapping sample_semantic_mapping
                  sample_first_of "pubmed" sample_file sample_database)).
  exists sample_rows. split; run.
Defined.

Lemma transform_ris_stray_blank_witness :
  transform_ris sample_syntax_mapping sample_semantic_mapping sample_first_of
    "pubmed" (["TI  - Title A" +:+ LF; "PT  - Review" +:+ LF; LF; LF] ++ sample_file)
  = Raise KeyError.
Proof.
  apply (proj2 (transform_ris_stray_blank sample_syntax_mapping sample_semantic_mapping
                  sample_first_of "pubmed" _ ltac:(rewrite !elem_of_cons; auto))).
  exists ["TI  - Title A" +:+ LF; "PT  - Review" +:+ LF; LF], LF, sample_file.
  split; [reflexivity|]. split; [run|]. right. exists LF. split; [reflexivity | run].
Defined.
